(** * pygamengn: the network client and its finite state machine

    A shallow embedding of [src/pygamengn/network/fsm.py] and
    [src/pygamengn/network/client.py].

    Python objects are records, attribute mutation is explicit state
    passing, and a raised exception is the [Raise] outcome of a call.  The
    mutations a call performed before it raised are kept, as in Python. *)

From stdpp Require Import gmap strings list fin_maps.
From Stdlib Require Import ZArith.

Open Scope Z_scope.

(** ** Python exceptions

    Only the class of an exception matters to an [except] clause.  [base]
    is the direct base class in the built-in hierarchy. *)

Inductive PyExc :=
  | BaseException
  | KeyboardInterrupt
  | Exception
  | AssertionError
  | AttributeError
  | LookupError
  | KeyError
  | TypeError
  | ValueError
  | RuntimeError
  | NotImplementedError
  | RecursionError
  | OSError
  | BlockingIOError
  | TimeoutError
  | ConnectionError
  | BrokenPipeError
  | ConnectionAbortedError
  | ConnectionRefusedError
  | ConnectionResetError.

#[global] Instance PyExc_eq_dec : EqDecision PyExc.
Proof. solve_decision. Defined.

Definition base (e : PyExc) : option PyExc :=
  match e with
  | BaseException => None
  | KeyboardInterrupt => Some BaseException
  | Exception => Some BaseException
  | AssertionError | AttributeError | LookupError | TypeError | ValueError
  | RuntimeError | OSError => Some Exception
  | KeyError => Some LookupError
  | NotImplementedError | RecursionError => Some RuntimeError
  | BlockingIOError | TimeoutError | ConnectionError => Some OSError
  | BrokenPipeError | ConnectionAbortedError | ConnectionRefusedError
  | ConnectionResetError => Some ConnectionError
  end.

(** The class itself followed by its bases, nearest first.  No built-in
    class used here is more than five levels below [BaseException]. *)
Fixpoint mro_upto (depth : nat) (e : PyExc) : list PyExc :=
  match depth with
  | O => []
  | S d => e :: match base e with
                | Some b => mro_upto d b
                | None => []
                end
  end.

Definition mro (e : PyExc) : list PyExc := mro_upto 6 e.

Definition issubclass (e cls : PyExc) : bool := bool_decide (cls ∈ mro e).

(** [except (c1, c2, ...)]: does the clause catch an exception of class [e]? *)
Definition catches (classes : list PyExc) (e : PyExc) : bool :=
  existsb (issubclass e) classes.

(** The outcome of a call: a returned value or a raised exception. *)
Inductive result (A : Type) :=
  | Ok (a : A)
  | Raise (e : PyExc).
Arguments Ok {A} a.
Arguments Raise {A} e.

Definition raised {A} (r : result A) : bool :=
  match r with Ok _ => false | Raise _ => true end.

(** ** fsm.py: [FiniteStateMachine] *)

Section FiniteStateMachine.
Context {State Input World : Type}.
Context `{Countable State, Countable Input}.

(** A transition callback (a guard) is a function or bound method, which
    is always true as a Python object, so [callback and callback()] is
    the value of the call.  The call may mutate the objects it closes
    over, [World], and may read the machine through its read-only
    [state] property: the first argument is what that property shows
    while the callback runs.  The result is the truth value of what the
    callback returns.  A callback that calls [transition] on the machine
    it guards is outside this model; those of the client do not. *)
Definition Callback := State → World → result bool * World.

(** One entry of the table: [{"state": ..., "callback": ...}].  A missing
    ["callback"] key and an explicit [None] both make [.get("callback")]
    return [None]. *)
Record TransitionEntry := {
  entry_state : State;
  entry_callback : option Callback
}.

Record FiniteStateMachine := {
  state : State;
  transitions : gmap State (gmap Input TransitionEntry)
}.

Definition set_state (m : FiniteStateMachine) (s : State) :=
  {| state := s; transitions := transitions m |}.

(** [transition(input_enum_value)].  Both subscripts of
    [self.__transitions[self.__state][input_enum_value]] raise
    [KeyError] on a missing key. *)
Definition transition (m : FiniteStateMachine) (input_enum_value : Input)
    (w : World) : result State * FiniteStateMachine * World :=
  match transitions m !! state m with
  | None => (Raise KeyError, m, w)
  | Some row =>
    match row !! input_enum_value with
    | None => (Raise KeyError, m, w)
    | Some transition_entry =>
      match entry_callback transition_entry with
      | None =>
        let m' := set_state m (entry_state transition_entry) in
        (Ok (state m'), m', w)
      | Some callback =>
        match callback (state m) w with
        | (Ok true, w') =>
          let m' := set_state m (entry_state transition_entry) in
          (Ok (state m'), m', w')
        | (Ok false, w') => (Ok (state m), m, w')
        | (Raise e, w') => (Raise e, m, w')
        end
      end
    end
  end.

(** The pair (state, input) is declared in the table of [m]. *)
Definition declared (m : FiniteStateMachine) (s : State) (i : Input)
    : option TransitionEntry :=
  transitions m !! s ≫= λ row, row !! i.

(** Feeding a machine a sequence of inputs; a caller that catches the
    exception of a failed call goes on with the machine as it is. *)
Fixpoint run (m : FiniteStateMachine) (inputs : list Input) (w : World)
    : FiniteStateMachine * World :=
  match inputs with
  | [] => (m, w)
  | i :: rest => let '(_, m', w') := transition m i w in run m' rest w'
  end.

End FiniteStateMachine.

Arguments Callback : clear implicits.
Arguments TransitionEntry : clear implicits.
Arguments FiniteStateMachine State Input World {_ _ _ _}.

(** ** The standard library's [selectors] and [socket], as the client uses them

    Modelled after the documented behaviour of [selectors.DefaultSelector]:
    a selector keeps one key per registered file descriptor. *)

Definition EVENT_READ : Z := 1.
Definition EVENT_WRITE : Z := 2.

(** An open socket object; [fileno] is its descriptor. *)
Record socket_obj := { fileno : Z }.

Record SelectorKey := {
  key_fileobj : socket_obj;
  key_fd : Z;
  key_events : Z
}.

(** [sel_closed] holds once [close()] was called: [get_map()] then returns
    [None] and the underlying poll object refuses every operation. *)
Record Selector := {
  fd_to_key : gmap Z SelectorKey;
  sel_closed : bool
}.

Module selectors.

Definition DefaultSelector : Selector :=
  {| fd_to_key := ∅; sel_closed := false |}.

(** The descriptor of a file object.  [None] has no [fileno()], and a
    negative descriptor is invalid: both are a [ValueError]. *)
Definition fileobj_lookup (fileobj : option socket_obj) : result Z :=
  match fileobj with
  | None => Raise ValueError
  | Some s => if fileno s <? 0 then Raise ValueError else Ok (fileno s)
  end.

(** Truth value of [get_map()]: [None] after [close()], otherwise a
    mapping that is true when it has at least one key. *)
Definition get_map_truth (sel : Selector) : bool :=
  if sel_closed sel then false
  else negb (bool_decide (fd_to_key sel = ∅)).

Definition register (sel : Selector) (fileobj : option socket_obj)
    (events : Z) : result SelectorKey * Selector :=
  if (events =? 0) || negb (Z.land events (Z.lnot (Z.lor EVENT_READ EVENT_WRITE)) =? 0)
  then (Raise ValueError, sel)
  else
    match fileobj, fileobj_lookup fileobj with
    | Some s, Ok fd =>
      match fd_to_key sel !! fd with
      | Some _ => (Raise KeyError, sel)
      | None =>
        if sel_closed sel then (Raise ValueError, sel)
        else
          let key := {| key_fileobj := s; key_fd := fd; key_events := events |} in
          (Ok key, {| fd_to_key := <[fd := key]> (fd_to_key sel);
                      sel_closed := sel_closed sel |})
      end
    | _, Raise e => (Raise e, sel)
    | None, Ok _ => (Raise ValueError, sel)
    end.

Definition unregister (sel : Selector) (fileobj : option socket_obj)
    : result SelectorKey * Selector :=
  match fileobj_lookup fileobj with
  | Raise e => (Raise e, sel)
  | Ok fd =>
    match fd_to_key sel !! fd with
    | None => (Raise KeyError, sel)
    | Some key =>
      let sel' := {| fd_to_key := delete fd (fd_to_key sel);
                     sel_closed := sel_closed sel |} in
      if sel_closed sel then (Raise ValueError, sel') else (Ok key, sel')
    end
  end.

(** [modify] keeps the key and replaces its event mask. *)
Definition modify (sel : Selector) (fileobj : option socket_obj)
    (events : Z) : result SelectorKey * Selector :=
  match fileobj_lookup fileobj with
  | Raise e => (Raise e, sel)
  | Ok fd =>
    match fd_to_key sel !! fd with
    | None => (Raise KeyError, sel)
    | Some key =>
      if sel_closed sel
      then (Raise ValueError,
            {| fd_to_key := delete fd (fd_to_key sel);
               sel_closed := sel_closed sel |})
      else
        let key' := {| key_fileobj := key_fileobj key; key_fd := key_fd key;
                       key_events := events |} in
        (Ok key', {| fd_to_key := <[fd := key']> (fd_to_key sel);
                     sel_closed := sel_closed sel |})
    end
  end.

(** [select]: one [(key, mask)] pair for each registered descriptor on
    which one of the registered events is ready; [os_ready fd] is the
    set of events the operating system reports for [fd]. *)
Definition select (sel : Selector) (os_ready : Z → Z)
    : result (list (SelectorKey * Z)) :=
  if sel_closed sel then Raise ValueError
  else
    Ok (omap (λ kv : Z * SelectorKey,
                let mask := Z.land (os_ready kv.1) (key_events kv.2) in
                if mask =? 0 then None else Some (kv.2, mask))
             (map_to_list (fd_to_key sel))).

Definition close (sel : Selector) : Selector :=
  {| fd_to_key := ∅; sel_closed := true |}.

End selectors.

(** ** client.py: enumerations *)

Inductive ClientState := DISCONNECTED | CONNECTED | READY | PLAYING.
Inductive ClientInput := INIT | START | UPDATE | STOP.

#[global] Instance ClientState_eq_dec : EqDecision ClientState.
Proof. solve_decision. Defined.
#[global] Instance ClientInput_eq_dec : EqDecision ClientInput.
Proof. solve_decision. Defined.

(** [auto()] numbers the members from 1 in declaration order. *)
Definition ClientState_value (s : ClientState) : positive :=
  match s with
  | DISCONNECTED => 1 | CONNECTED => 2 | READY => 3 | PLAYING => 4
  end%positive.

Definition ClientState_of_value (p : positive) : option ClientState :=
  match p with
  | 1 => Some DISCONNECTED | 2 => Some CONNECTED
  | 3 => Some READY | 4 => Some PLAYING
  | _ => None
  end%positive.

Lemma ClientState_of_value_value s :
  ClientState_of_value (ClientState_value s) = Some s.
Proof. by destruct s. Qed.

#[global] Instance ClientState_countable : Countable ClientState :=
  inj_countable ClientState_value ClientState_of_value
                ClientState_of_value_value.

Definition ClientInput_value (i : ClientInput) : string :=
  match i with
  | INIT => "INIT" | START => "START" | UPDATE => "UPDATE" | STOP => "STOP"
  end.

(** The values a decoded JSON object can hold, as far as the client looks. *)
Inductive PyValue :=
  | PyNone
  | PyInt (z : Z)
  | PyStr (s : string).

(** [ClientInput(value)]: the member with that value, or [ValueError]. *)
Definition ClientInput_call (v : PyValue) : result ClientInput :=
  match v with
  | PyStr s =>
    if String.eqb s "INIT" then Ok INIT
    else if String.eqb s "START" then Ok START
    else if String.eqb s "UPDATE" then Ok UPDATE
    else if String.eqb s "STOP" then Ok STOP
    else Raise ValueError
  | _ => Raise ValueError
  end.

Lemma ClientInput_of_value_value i :
  match ClientInput_call (PyStr (ClientInput_value i)) with
  | Ok j => Some j
  | Raise _ => None
  end = Some i.
Proof. by destruct i. Qed.

#[global] Instance ClientInput_countable : Countable ClientInput :=
  inj_countable ClientInput_value
    (λ s, match ClientInput_call (PyStr s) with
          | Ok j => Some j
          | Raise _ => None
          end)
    ClientInput_of_value_value.

(** ** The protocol classes the client imports

    [proto_message], [proto_reader] and [proto_writer] are imported by
    client.py; the client only sees the interface modelled here. *)

Definition Dictionary := gmap string PyValue.

(** Modelled from the spec: the payload of the three outbound message
    kinds, [connect] (player identity), [ready] (no field) and [input]
    (ordered list of command tokens). *)
Inductive Payload :=
  | ConnectPayload (player_name : string)
  | ReadyPayload
  | InputPayload (commands : list string).

(** Modelled from the spec: a message carries its payload and the
    serialized buffer made for the writer; [reset()] clears it once it
    was fully sent.  An absent buffer ([None]) and an empty one are both
    [[]]: the client only tests its truth value.  The send offset lives
    behind [WriteOutcome]. *)
Record ProtoMessage := {
  payload : option Payload;
  buffer : list Byte.byte
}.

Module ProtoMessage.
Section Factory.
(** The byte layout of a frame is left open by the spec: the encoder is
    a parameter. *)
Variable serialize : Payload → list Byte.byte.

(** Modelled from the spec: each factory of [ProtoMessage] produces a
    message that carries its serialized buffer, ready for the writer. *)
Definition build (p : Payload) : ProtoMessage :=
  {| payload := Some p; buffer := serialize p |}.

(** Modelled from the spec: [ProtoMessage.connect_message(player_name)]. *)
Definition connect_message (player_name : string) : ProtoMessage :=
  build (ConnectPayload player_name).

(** Modelled from the spec: [ProtoMessage.ready_message()]. *)
Definition ready_message : ProtoMessage := build ReadyPayload.

(** Modelled from the spec: [ProtoMessage.input_message(commands)]. *)
Definition input_message (commands : list string) : ProtoMessage :=
  build (InputPayload commands).
End Factory.

(** Modelled from the spec: [ProtoMessage.reset()] clears the message
    once it is fully sent. *)
Definition reset (pm : ProtoMessage) : ProtoMessage :=
  {| payload := None; buffer := [] |}.
End ProtoMessage.

(** Modelled from the spec: what one [ProtoReader.read()] does.  It makes
    one non-blocking receive and reports whether a whole frame is decoded
    by now; the decoded object is then [obj].  A receive that fails, or
    that finds the peer closed, raises. *)
Inductive ReadOutcome :=
  | ReadIncomplete
  | ReadComplete (decoded : Dictionary)
  | ReadFault (e : PyExc).

(** Modelled from the spec: what one [ProtoWriter.write()] does.  It makes
    one non-blocking send from the last unflushed offset and reports
    whether the whole buffer is out by now. *)
Inductive WriteOutcome :=
  | WriteIncomplete
  | WriteComplete
  | WriteFault (e : PyExc).

(** Modelled from the spec: of a [ProtoReader] the client reads [obj],
    the object decoded by the last completed read, [None] after
    [reset()]. *)
Record ProtoReader := { obj : option Dictionary }.

(** Modelled from the spec: of a [ProtoWriter] the client sets the buffer
    to flush. *)
Record ProtoWriter := { writer_buffer : list Byte.byte }.

(** What the world outside the client does during one call of [tick()] or
    [stop()]: the readiness the operating system reports per descriptor,
    the outcome of the read or write the call may make, and whether
    closing the socket fails, which [socket.close()] reports as an
    [OSError]. *)
Record Transport := {
  os_ready : Z → Z;
  read_outcome : ReadOutcome;
  write_outcome : WriteOutcome;
  close_fails : bool
}.

(** The records the client hands to [logging]. *)
Inductive LogRecord :=
  | DebugConnecting (host : string) (port : Z)
  | ErrorNotConnected
  | DebugDisconnected (e : PyExc)
  | DebugStop
  | DebugUnregisterException (e : PyExc)
  | DebugCloseException (e : PyExc)
  | DebugTransitionConnected
  | DebugTransitionPlaying
  | DebugSent (p : option Payload)
  | DebugReceived (d : option Dictionary).

(** ** client.py: [Client]

    [ClientFields] holds the attributes the transition callbacks can
    reach, and the log; [Client] adds the state machine, whose table
    holds those callbacks. *)

Record ClientFields := {
  address : string * Z;
  selector : Selector;
  socket : option socket_obj;
  proto_message : option ProtoMessage;
  processed_count : Z;
  reader : ProtoReader;
  writer : ProtoWriter;
  log : list LogRecord
}.

Definition set_selector (v : Selector) (f : ClientFields) : ClientFields :=
  {| address := address f; selector := v; socket := socket f;
     proto_message := proto_message f; processed_count := processed_count f;
     reader := reader f; writer := writer f; log := log f |}.

Definition set_socket (v : option socket_obj) (f : ClientFields) : ClientFields :=
  {| address := address f; selector := selector f; socket := v;
     proto_message := proto_message f; processed_count := processed_count f;
     reader := reader f; writer := writer f; log := log f |}.

Definition set_proto_message (v : option ProtoMessage) (f : ClientFields)
    : ClientFields :=
  {| address := address f; selector := selector f; socket := socket f;
     proto_message := v; processed_count := processed_count f;
     reader := reader f; writer := writer f; log := log f |}.

Definition set_processed_count (v : Z) (f : ClientFields) : ClientFields :=
  {| address := address f; selector := selector f; socket := socket f;
     proto_message := proto_message f; processed_count := v;
     reader := reader f; writer := writer f; log := log f |}.

Definition set_reader (v : ProtoReader) (f : ClientFields) : ClientFields :=
  {| address := address f; selector := selector f; socket := socket f;
     proto_message := proto_message f; processed_count := processed_count f;
     reader := v; writer := writer f; log := log f |}.

Definition set_writer (v : ProtoWriter) (f : ClientFields) : ClientFields :=
  {| address := address f; selector := selector f; socket := socket f;
     proto_message := proto_message f; processed_count := processed_count f;
     reader := reader f; writer := v; log := log f |}.

Definition logging (r : LogRecord) (f : ClientFields) : ClientFields :=
  {| address := address f; selector := selector f; socket := socket f;
     proto_message := proto_message f; processed_count := processed_count f;
     reader := reader f; writer := writer f; log := log f ++ [r] |}.

Record Client := {
  fields : ClientFields;
  fsm : FiniteStateMachine ClientState ClientInput ClientFields
}.

(** *** Calls that mutate the client and may raise *)

Definition M (A : Type) : Type := Client → result A * Client.

Definition ret {A} (a : A) : M A := λ c, (Ok a, c).
Definition raise {A} (e : PyExc) : M A := λ c, (Raise e, c).

Definition bind {A B} (m : M A) (k : A → M B) : M B :=
  λ c, match m c with
       | (Ok a, c') => k a c'
       | (Raise e, c') => (Raise e, c')
       end.

Declare Scope client_scope.
Delimit Scope client_scope with client.
Notation "x <~ m ;; k" := (bind m (λ x, k))
  (at level 100, m at next level, k at level 200, right associativity)
  : client_scope.
Notation "m ;;; k" := (bind m (λ _, k))
  (at level 100, k at level 200, right associativity) : client_scope.

Definition with_fields (g : ClientFields → ClientFields) (c : Client) : Client :=
  {| fields := g (fields c); fsm := fsm c |}.

(** An attribute update, which cannot fail. *)
Definition update (g : ClientFields → ClientFields) : M unit :=
  λ c, (Ok (), with_fields g c).

Definition read {A} (g : ClientFields → A) : M A :=
  λ c, (Ok (g (fields c)), c).

(** [try: body except classes as e: handler e] *)
Definition try_except {A} (body : M A) (classes : list PyExc)
    (handler : PyExc → M A) : M A :=
  λ c, match body c with
       | (Ok a, c') => (Ok a, c')
       | (Raise e, c') =>
         if catches classes e then handler e c' else (Raise e, c')
       end.

(** [try: body finally: final]: [final] runs either way, and the
    exception of [body] goes on afterwards. *)
Definition try_finally {A} (body : M A) (final : M unit) : M A :=
  λ c, match body c with
       | (r, c') =>
         match final c' with
         | (Ok _, c'') => (r, c'')
         | (Raise e, c'') => (Raise e, c'')
         end
       end.

(** A call on the selector attribute. *)
Definition on_selector {A} (op : Selector → result A * Selector) : M A :=
  λ c, let '(r, sel') := op (selector (fields c)) in
       (r, with_fields (set_selector sel') c).

Open Scope client_scope.

Section ClientMethods.
Variable serialize : Payload → list Byte.byte.

(** [transition_connected] and [transition_playing], the two callbacks
    of the table.  Neither reads the machine's state. *)
Definition transition_connected : Callback ClientState ClientFields :=
  λ _ f,
    let f := logging DebugTransitionConnected f in
    let f := set_proto_message (Some (ProtoMessage.ready_message serialize)) f in
    (Ok true, f).

Definition transition_playing : Callback ClientState ClientFields :=
  λ _ f,
    let f := logging DebugTransitionPlaying f in
    let f := set_proto_message
               (Some (ProtoMessage.input_message serialize
                        ["FORWARD"; "LEFT"; "FIRE"]%string)) f in
    (Ok true, f).

(** The table literal of [__init__]. *)
Definition client_transitions
    : gmap ClientState (gmap ClientInput (TransitionEntry ClientState ClientFields)) :=
  <[DISCONNECTED :=
      {[INIT := {| entry_state := CONNECTED;
                   entry_callback := Some transition_connected |}]}]>
  (<[CONNECTED :=
      {[START := {| entry_state := PLAYING;
                    entry_callback := Some transition_playing |}]}]>
  (<[PLAYING :=
      <[UPDATE := {| entry_state := PLAYING;
                     entry_callback := Some transition_playing |}]>
      {[STOP := {| entry_state := DISCONNECTED;
                   entry_callback := None |}]}]> ∅)).

(** [Client(address)]; [fd] is the descriptor the operating system gives
    the new socket. *)
Definition init (addr : string * Z) (fd : Z) : Client :=
  {| fields := {| address := addr;
                  selector := selectors.DefaultSelector;
                  socket := Some {| fileno := fd |};
                  proto_message := None;
                  processed_count := 0;
                  reader := {| obj := None |};
                  writer := {| writer_buffer := [] |};
                  log := [] |};
     fsm := {| state := DISCONNECTED; transitions := client_transitions |} |}.

(** [connect(player_name)].  [connect_ex] reports its outcome as a return
    value, which is dropped; on [None] the attribute lookup fails. *)
Definition connect (player_name : string) : M unit :=
  addr <~ read address;;
  update (logging (DebugConnecting addr.1 addr.2));;;
  sock <~ read socket;;
  match sock with
  | None => raise AttributeError
  | Some _ =>
    update (set_proto_message
              (Some (ProtoMessage.connect_message serialize player_name)));;;
    sock <~ read socket;;
    on_selector (λ sel, selectors.register sel sock EVENT_WRITE);;;
    ret ()
  end.

(** [stop()] *)
Definition stop (io : Transport) : M unit :=
  update (logging DebugStop);;;
  try_except
    (sock <~ read socket;;
     on_selector (λ sel, selectors.unregister sel sock);;;
     ret ())
    [Exception]
    (λ e, update (logging (DebugUnregisterException e)));;;
  try_finally
    (try_except
       (sock <~ read socket;;
        match sock with
        | None => raise AttributeError
        | Some _ =>
          if close_fails io then raise OSError else ret ()
        end)
       [OSError]
       (λ e, update (logging (DebugCloseException e))))
    (update (set_socket None));;;
  on_selector (λ sel, (Ok (), selectors.close sel)).

Definition set_read_mode : M unit :=
  sock <~ read socket;;
  on_selector (λ sel, selectors.modify sel sock EVENT_READ);;;
  ret ().

Definition set_write_mode : M unit :=
  sock <~ read socket;;
  on_selector (λ sel, selectors.modify sel sock EVENT_WRITE);;;
  ret ().

(** [self.__fsm.transition(i)], the callbacks acting on the fields. *)
Definition fsm_transition (i : ClientInput) : M ClientState :=
  λ c, let '(r, m', f') := transition (fsm c) i (fields c) in
       (r, {| fields := f'; fsm := m' |}).

(** [__process_response(dictionary)] *)
Definition process_response (dictionary : option Dictionary) : M unit :=
  update (logging (DebugReceived dictionary));;;
  match dictionary with
  | None => raise TypeError
  | Some d =>
    match d !! "message"%string with
    | None => raise KeyError
    | Some v =>
      match ClientInput_call v with
      | Raise e => raise e
      | Ok i =>
        fsm_transition i;;;
        n <~ read processed_count;;
        update (set_processed_count (n + 1))
      end
    end
  end.

(** [self.__reader.read()]: the outcome comes from the transport; a
    completed read leaves the decoded object in [obj]. *)
Definition reader_read (io : Transport) : M bool :=
  match read_outcome io with
  | ReadIncomplete => ret false
  | ReadComplete d => update (set_reader {| obj := Some d |});;; ret true
  | ReadFault e => raise e
  end.

Definition reader_reset : M unit :=
  update (set_reader {| obj := None |}).

Definition writer_write (io : Transport) : M bool :=
  match write_outcome io with
  | WriteIncomplete => ret false
  | WriteComplete => ret true
  | WriteFault e => raise e
  end.

(** [__process_events(mask)] *)
Definition process_events (io : Transport) (mask : Z) : M unit :=
  (if negb (Z.land mask EVENT_READ =? 0) then
     done_reading <~ reader_read io;;
     if done_reading : bool then
       r <~ read reader;;
       process_response (obj r);;;
       reader_reset;;;
       set_write_mode
     else ret ()
   else ret ());;;
  (if negb (Z.land mask EVENT_WRITE =? 0) then
     pm <~ read proto_message;;
     match pm with
     | None => raise AttributeError
     | Some m =>
       match buffer m with
       | [] => raise AssertionError
       | _ :: _ =>
         update (set_writer {| writer_buffer := buffer m |});;;
         done_writing <~ writer_write io;;
         update (logging (DebugSent (payload m)));;;
         if done_writing : bool then
           update (set_proto_message (Some (ProtoMessage.reset m)));;;
           set_read_mode
         else ret ()
       end
     end
   else ret ()).

(** The loop of [tick()] over the selected events. *)
Fixpoint tick_events (io : Transport) (events : list (SelectorKey * Z))
    : M unit :=
  match events with
  | [] => ret ()
  | (_, mask) :: rest =>
    try_except
      (process_events io mask)
      [RuntimeError; ConnectionRefusedError; ConnectionResetError]
      (λ e, update (logging (DebugDisconnected e));;; stop io);;;
    tick_events io rest
  end.

(** [tick()] *)
Definition tick (io : Transport) : M unit :=
  sel <~ read selector;;
  if negb (selectors.get_map_truth sel) then
    update (logging ErrorNotConnected)
  else
    match selectors.select sel (os_ready io) with
    | Raise e => raise e
    | Ok events => tick_events io events
    end.

End ClientMethods.

(** ** Sessions

    What a caller can do with a client, and a run of such calls.  A caller
    that catches what a call raises goes on with the client as the call
    left it. *)

Inductive Call :=
  | CallConnect (player_name : string)
  | CallTick (io : Transport)
  | CallStop (io : Transport).

Definition call (serialize : Payload → list Byte.byte) (op : Call) : M unit :=
  match op with
  | CallConnect player_name => connect serialize player_name
  | CallTick io => tick io
  | CallStop io => stop io
  end.

Definition session (serialize : Payload → list Byte.byte) (calls : list Call)
    (c : Client) : Client :=
  foldl (λ c op, (call serialize op c).2) c calls.

(** The interest registered for the client's socket, if there is one. *)
Definition registered_events (c : Client) : option Z :=
  sock ← socket (fields c);
  key ← fd_to_key (selector (fields c)) !! fileno sock;
  Some (key_events key).

(** A sample frame layout for the examples: one byte for the kind. *)
Definition tag_serialize (p : Payload) : list Byte.byte :=
  match p with
  | ConnectPayload _ => [Byte.x01]
  | ReadyPayload => [Byte.x02]
  | InputPayload _ => [Byte.x03]
  end.

(** Sample transports: the socket is ready both ways and nothing fails. *)
Definition quiet : Transport :=
  {| os_ready := λ _, Z.lor EVENT_READ EVENT_WRITE;
     read_outcome := ReadIncomplete;
     write_outcome := WriteIncomplete;
     close_fails := false |}.

Definition sending : Transport :=
  {| os_ready := os_ready quiet; read_outcome := ReadIncomplete;
     write_outcome := WriteComplete; close_fails := false |}.

Definition receiving (d : Dictionary) : Transport :=
  {| os_ready := os_ready quiet; read_outcome := ReadComplete d;
     write_outcome := WriteIncomplete; close_fails := false |}.

Definition failing_read (e : PyExc) : Transport :=
  {| os_ready := os_ready quiet; read_outcome := ReadFault e;
     write_outcome := WriteIncomplete; close_fails := false |}.

Definition failing_write (e : PyExc) : Transport :=
  {| os_ready := os_ready quiet; read_outcome := ReadIncomplete;
     write_outcome := WriteFault e; close_fails := false |}.

Definition response (kind : string) : Dictionary :=
  {[ "message"%string := PyStr kind ]}.

(** Sample clients.  [connected_client] has just called [connect()];
    [awaiting_client] has sent its connect message and waits for the
    response; [told_to_stop] has played and was sent a stop. *)
Definition connected_client : Client :=
  (connect tag_serialize "Player2"
     (init tag_serialize ("localhost"%string, 54879) 3)).2.

Definition awaiting_client : Client :=
  session tag_serialize [CallTick sending] connected_client.

Definition ready_client : Client :=
  session tag_serialize
    [CallTick (receiving (response "INIT")); CallTick sending]
    awaiting_client.

Definition told_to_stop : Client :=
  session tag_serialize
    [CallTick (receiving (response "START")); CallTick sending;
     CallTick (receiving (response "STOP"))]
    ready_client.

(** A client in the middle of a session: its socket is open and is the
    one registration of its selector, under [key]. *)
Definition live (c : Client) (s : socket_obj) (key : SelectorKey) : Prop :=
  socket (fields c) = Some s ∧ 0 ≤ fileno s ∧
  selector (fields c)
  = {| fd_to_key := {[fileno s := key]}; sel_closed := false |}.

(** A client after [stop()]: no socket, and a closed selector without
    registrations. *)
Definition stopped (c : Client) : Prop :=
  socket (fields c) = None ∧
  selector (fields c) = {| fd_to_key := ∅; sel_closed := true |}.

(** Exactly one of the two interests. *)
Definition one_interest (events : Z) : Prop :=
  events = EVENT_READ ∨ events = EVENT_WRITE.

(** What holds all along a session on the socket [s]: the client has the
    table of [__init__], and it is live under a single interest or
    stopped. *)
Definition session_inv (serialize : Payload → list Byte.byte)
    (s : socket_obj) (c : Client) : Prop :=
  transitions (fsm c) = client_transitions serialize ∧
  ((∃ key, live c s key ∧ one_interest (key_events key)) ∨ stopped c).

(** The exception classes the loop of [tick()] catches. *)
Definition connection_faults : list PyExc :=
  [RuntimeError; ConnectionRefusedError; ConnectionResetError].

(** Two clients with the same socket, selector and transition table. *)
Definition same_core (c c' : Client) : Prop :=
  socket (fields c') = socket (fields c) ∧
  selector (fields c') = selector (fields c) ∧
  transitions (fsm c') = transitions (fsm c).

Definition with_events (key : SelectorKey) (events : Z) : SelectorKey :=
  {| key_fileobj := key_fileobj key; key_fd := key_fd key;
     key_events := events |}.

(** A client that holds its socket and has registered nothing yet. *)
Definition idle (c : Client) (s : socket_obj) : Prop :=
  socket (fields c) = Some s ∧
  selector (fields c) = selectors.DefaultSelector.

(** What holds of a client made by [Client(address)] whatever is called
    on it: it has the table of [__init__], its state is not [READY], and
    it is idle, or live under a single interest with a message at hand,
    or stopped. *)
Definition client_inv (serialize : Payload → list Byte.byte)
    (s : socket_obj) (c : Client) : Prop :=
  transitions (fsm c) = client_transitions serialize ∧
  state (fsm c) ≠ READY ∧
  (idle c s ∨
   ((∃ key, live c s key ∧ one_interest (key_events key)) ∧
    is_Some (proto_message (fields c))) ∨
   stopped c).

(** ** client.py run as a program

    The loop under [if __name__ == "__main__"].  It does not end by
    itself, so a run is cut into iterations: in each, [tick()] runs and
    the program sleeps; [Interrupted] is an iteration in whose sleep the
    user's [KeyboardInterrupt] arrives.  An interrupt in the middle of
    [tick()] is not modelled. *)
Inductive Iteration :=
  | Sleeps (io : Transport)
  | Interrupted (io : Transport).

Definition iteration_io (it : Iteration) : Transport :=
  match it with Sleeps io | Interrupted io => io end.

(** How far the program got: still looping when the iterations run out,
    ended by [done = True], or ended by an exception nobody caught. *)
Inductive ProgramOutcome :=
  | Running (c : Client)
  | Exited (c : Client)
  | Crashed (e : PyExc) (c : Client).

(** The [except (AssertionError, KeyboardInterrupt)] handler: [stop()],
    then [done = True]; what [stop()] raises there ends the program. *)
Definition main_handler (io : Transport) (c : Client) : ProgramOutcome :=
  match stop io c with
  | (Ok _, c') => Exited c'
  | (Raise e, c') => Crashed e c'
  end.

Fixpoint main_loop (script : list Iteration) (c : Client) : ProgramOutcome :=
  match script with
  | [] => Running c
  | it :: rest =>
    match tick (iteration_io it) c with
    | (Raise e, c') =>
      if catches [AssertionError; KeyboardInterrupt] e
      then main_handler (iteration_io it) c'
      else Crashed e c'
    | (Ok _, c') =>
      match it with
      | Sleeps _ => main_loop rest c'
      | Interrupted io => main_handler io c'
      end
    end
  end.

(** The program: a client for localhost:54879 connects as Player2 and
    loops; [fd] is the descriptor of its socket. *)
Definition main (serialize : Payload → list Byte.byte) (fd : Z)
    (script : list Iteration) : ProgramOutcome :=
  match connect serialize "Player2"
          (init serialize ("localhost"%string, 54879) fd) with
  | (Raise e, c) => Crashed e c
  | (Ok _, c) => main_loop script c
  end.

(** A sample client in [PLAYING] that waits for the next response. *)
Definition playing_client : Client :=
  session tag_serialize
    [CallTick (receiving (response "START")); CallTick sending]
    ready_client.

(** * Properties *)

(** ** The state machine *)

Section FiniteStateMachineFacts.
Context {State Input World : Type}.
Context `{Countable State, Countable Input}.
Implicit Types (m : FiniteStateMachine State Input World) (i : Input).
Implicit Types (w : World) (e : TransitionEntry State World).

Lemma declared_lookup m s i e :
  declared m s i = Some e ↔
  ∃ row, transitions m !! s = Some row ∧ row !! i = Some e.
Proof.
  unfold declared. destruct (transitions m !! s) as [row|]; simpl.
  - split; [eauto|]. by intros (? & [= ->] & ?).
  - split; [done|]. by intros (? & ? & ?).
Qed.

Lemma transition_transitions m i w :
  transitions (transition m i w).1.2 = transitions m.
Proof.
  unfold transition.
  destruct (transitions m !! state m) as [row|]; [|done].
  destruct (row !! i) as [e|]; [|done].
  destruct (entry_callback e) as [g|]; [|done].
  by destruct (g (state m) w) as [[[]|] ?].
Qed.

(** A call leaves the state where it was or moves it to the target of
    an entry of the table. *)
Lemma transition_state m i w :
  state (transition m i w).1.2 = state m ∨
  ∃ e, declared m (state m) i = Some e ∧
       state (transition m i w).1.2 = entry_state e.
Proof.
  unfold transition, declared.
  destruct (transitions m !! state m) as [row|]; simpl; [|by left].
  destruct (row !! i) as [e|] eqn:He; [|by left].
  destruct (entry_callback e) as [g|]; [|right; eauto].
  destruct (g (state m) w) as [[[]|] ?]; simpl; [right; eauto|by left..].
Qed.

(** A state that is not the target of any entry is never entered. *)
Lemma run_avoids (bad : State) inputs : ∀ m w,
  (∀ s i e, declared m s i = Some e → entry_state e ≠ bad) →
  state m ≠ bad →
  state (run m inputs w).1 ≠ bad.
Proof.
  induction inputs as [|i rest IH]; intros m w Htargets Hm; [done|].
  simpl. destruct (transition m i w) as [[r m'] w'] eqn:Hstep.
  assert (Htr : transitions m' = transitions m).
  { by rewrite <- (transition_transitions m i w), Hstep. }
  apply IH.
  - intros s j e. unfold declared. rewrite Htr. apply Htargets.
  - destruct (transition_state m i w) as [Hsame|(e & He & Hto)];
      rewrite Hstep in *; simpl in *.
    + by rewrite Hsame.
    + rewrite Hto. eauto.
Qed.

(** C1.  For a pair (state, input) declared in the table, a call of
    [transition] in that state with that input: without a guard, moves
    to the declared next state; with a guard, calls the guard while the
    machine still shows the old state, keeps the guard's side effects,
    moves to the declared next state when the guard returns true, and
    when it returns false leaves the machine as it was and returns
    normally. *)
Theorem transition_declared m i e w :
  declared m (state m) i = Some e →
  (entry_callback e = None →
     transition m i w = (Ok (entry_state e), set_state m (entry_state e), w)) ∧
  (∀ guard, entry_callback e = Some guard →
     ∃ r w', guard (state m) w = (r, w') ∧
       (transition m i w).2 = w' ∧
       (r = Ok true →
          transition m i w
          = (Ok (entry_state e), set_state m (entry_state e), w')) ∧
       (r = Ok false → transition m i w = (Ok (state m), m, w')) ∧
       (r ≠ Ok true → (transition m i w).1.2 = m)).
Proof.
  intros (row & Hrow & He)%declared_lookup.
  unfold transition. rewrite Hrow, He. split.
  - by intros ->.
  - intros guard ->. destruct (guard (state m) w) as [r w'] eqn:Hg.
    exists r, w'. split; [done|].
    destruct r as [[]|x]; simpl; repeat split; try done.
Qed.

(** C4.  For a pair (state, input) that the table does not declare, a
    call of [transition] in that state with that input raises
    [KeyError] and leaves the machine, and everything else, as it
    was. *)
Theorem transition_undeclared m i w :
  declared m (state m) i = None →
  transition m i w = (Raise KeyError, m, w).
Proof.
  unfold declared, transition.
  destruct (transitions m !! state m) as [row|]; simpl; [|done].
  by intros ->.
Qed.

End FiniteStateMachineFacts.

(** ** Event masks *)

Lemma land_power_of_two (x n : Z) :
  0 ≤ n → Z.land x (2 ^ n) = if Z.testbit x n then 2 ^ n else 0.
Proof.
  intros Hn. apply Z.bits_inj'. intros k Hk.
  rewrite Z.land_spec, Z.pow2_bits_eqb by done.
  destruct (Z.eqb_spec n k) as [->|Hne].
  - destruct (Z.testbit x k); simpl.
    + by rewrite Z.pow2_bits_true.
    + by rewrite Z.bits_0.
  - rewrite andb_false_r. destruct (Z.testbit x n).
    + by rewrite Z.pow2_bits_false.
    + by rewrite Z.bits_0.
Qed.

(** A selected mask is cut down to the registered interest: under a
    single interest it is empty or that interest. *)
Lemma mask_one_interest (ready events : Z) :
  one_interest events →
  Z.land ready events = 0 ∨ Z.land ready events = events.
Proof.
  intros [-> | ->].
  - pose proof (land_power_of_two ready 0) as Hb.
    change (2 ^ 0) with 1 in Hb. unfold EVENT_READ. rewrite Hb by done. destruct (Z.testbit ready 0); auto.
  - pose proof (land_power_of_two ready 1) as Hb.
    change (2 ^ 1) with 2 in Hb. unfold EVENT_WRITE. rewrite Hb by done. destruct (Z.testbit ready 1); auto.
Qed.

(** ** The selector under a single registration *)

Section SelectorFacts.
Variables (s : socket_obj) (key : SelectorKey).
Hypothesis fileno_valid : 0 ≤ fileno s.

Let sel : Selector :=
  {| fd_to_key := {[fileno s := key]}; sel_closed := false |}.

Lemma fileobj_lookup_open : selectors.fileobj_lookup (Some s) = Ok (fileno s).
Proof.
  unfold selectors.fileobj_lookup.
  by destruct (Z.ltb_spec (fileno s) 0); [lia|].
Qed.

Lemma get_map_truth_single : selectors.get_map_truth sel = true.
Proof.
  unfold selectors.get_map_truth. simpl.
  rewrite bool_decide_eq_false_2; [done|]. apply insert_non_empty.
Qed.

Lemma select_single ready :
  selectors.select sel ready
  = Ok (let mask := Z.land (ready (fileno s)) (key_events key) in
        if mask =? 0 then [] else [(key, mask)]).
Proof.
  unfold selectors.select. simpl. rewrite map_to_list_singleton. simpl.
  by destruct (_ =? 0).
Qed.

Lemma modify_single events :
  selectors.modify sel (Some s) events
  = (Ok (with_events key events),
     {| fd_to_key := {[fileno s := with_events key events]};
        sel_closed := false |}).
Proof.
  unfold selectors.modify. rewrite fileobj_lookup_open. simpl.
  rewrite lookup_singleton_eq. by rewrite insert_singleton_eq.
Qed.

Lemma unregister_single :
  selectors.unregister sel (Some s)
  = (Ok key, {| fd_to_key := ∅; sel_closed := false |}).
Proof.
  unfold selectors.unregister. rewrite fileobj_lookup_open. simpl.
  rewrite lookup_singleton_eq. by rewrite delete_singleton_eq.
Qed.

Lemma register_single events :
  (selectors.register sel (Some s) events).2 = sel.
Proof.
  unfold selectors.register. destruct (_ || _); [done|].
  rewrite fileobj_lookup_open. simpl. by rewrite lookup_singleton_eq.
Qed.

End SelectorFacts.

(** ** The client *)

Ltac run_client :=
  unfold stop, connect, set_read_mode, set_write_mode, reader_read,
    reader_reset, writer_write, fsm_transition, bind, try_except,
    try_finally, update, read, on_selector, raise, ret, with_fields;
  simpl.

Lemma bind_ret_unit (m : M unit) c : (m;;; ret ()) c = m c.
Proof. unfold bind, ret. by destruct (m c) as [[[]|] ?]. Qed.

Lemma same_core_live c c' s key :
  same_core c c' → live c s key → live c' s key.
Proof.
  intros (Hso & Hsel & _) (? & ? & ?). unfold live.
  by rewrite Hso, Hsel.
Qed.

(** *** [stop()] *)

Lemma unregister_raises sel fileobj e sel' :
  selectors.unregister sel fileobj = (Raise e, sel') →
  issubclass e Exception = true.
Proof.
  unfold selectors.unregister, selectors.fileobj_lookup.
  repeat case_match; intros [= <- <-]; simplify_eq; done.
Qed.

(** With a socket at hand, [stop()] returns normally whatever the
    release steps do, and leaves the client stopped. *)
Lemma stop_open io c s :
  socket (fields c) = Some s →
  (stop io c).1 = Ok () ∧ stopped (stop io c).2 ∧ fsm (stop io c).2 = fsm c.
Proof.
  destruct c as [[addr sel so pm n rd wr lg] m]. simpl. intros ->.
  run_client.
  destruct (selectors.unregister sel (Some s)) as [[k|e] sel'] eqn:Hu; simpl.
  - destruct (close_fails io); simpl; done.
  - rewrite (unregister_raises _ _ _ _ Hu). simpl.
    destruct (close_fails io); simpl; done.
Qed.

(** Without one, the call on [None] raises, past [except OSError]. *)
Lemma stop_none io c :
  socket (fields c) = None →
  (stop io c).1 = Raise AttributeError ∧
  same_core c (stop io c).2 ∧ fsm (stop io c).2 = fsm c.
Proof.
  destruct c as [[addr sel so pm n rd wr lg] m]. simpl. intros ->.
  run_client. done.
Qed.

Lemma stop_socket io c : socket (fields (stop io c).2) = None.
Proof.
  destruct (socket (fields c)) as [s|] eqn:Hso.
  - by destruct (stop_open io c s Hso) as (_ & [? _] & _).
  - destruct (stop_none io c Hso) as (_ & (-> & _) & _). done.
Qed.

(** *** Responses and the table of the client *)

Lemma ClientInput_call_raises v e :
  ClientInput_call v = Raise e → e = ValueError.
Proof. unfold ClientInput_call. repeat case_match; congruence. Qed.

Lemma ClientInput_call_unknown v :
  (∀ i, v ≠ PyStr (ClientInput_value i)) →
  ClientInput_call v = Raise ValueError.
Proof.
  intros Hv. destruct (ClientInput_call v) as [i|e] eqn:Hcall.
  - exfalso. apply (Hv i). unfold ClientInput_call in Hcall.
    repeat case_match; simplify_eq;
      match goal with
      | Heq : String.eqb _ _ = true |- _ => apply String.eqb_eq in Heq
      end; by subst.
  - by rewrite (ClientInput_call_raises _ _ Hcall).
Qed.

Section ClientFacts.
Variable serialize : Payload → list Byte.byte.

Lemma client_step
    (m : FiniteStateMachine ClientState ClientInput ClientFields) i f :
  transitions m = client_transitions serialize →
  transition m i f =
  match state m, i with
  | DISCONNECTED, INIT =>
    (Ok CONNECTED, set_state m CONNECTED,
     (transition_connected serialize DISCONNECTED f).2)
  | CONNECTED, START =>
    (Ok PLAYING, set_state m PLAYING,
     (transition_playing serialize CONNECTED f).2)
  | PLAYING, UPDATE =>
    (Ok PLAYING, set_state m PLAYING,
     (transition_playing serialize PLAYING f).2)
  | PLAYING, STOP => (Ok DISCONNECTED, set_state m DISCONNECTED, f)
  | _, _ => (Raise KeyError, m, f)
  end.
Proof.
  destruct m as [st tr]. simpl. intros ->.
  destruct st, i; reflexivity.
Qed.

(** Processing a response touches neither socket nor selector, and what
    it raises is not for the handler of [tick()]. *)
Lemma process_response_core d c :
  transitions (fsm c) = client_transitions serialize →
  same_core c (process_response d c).2 ∧
  match (process_response d c).1 with
  | Ok _ => True
  | Raise e => catches connection_faults e = false
  end.
Proof.
  destruct c as [[addr sel so pm n rd wr lg] m]. simpl. intros Htr.
  unfold process_response, same_core. run_client.
  destruct d as [d|]; simpl; [|done].
  destruct (d !! "message"%string) as [v|]; simpl; [|done].
  destruct (ClientInput_call v) as [i|e] eqn:Hv; simpl.
  - rewrite (client_step _ _ _ Htr). simpl.
    destruct (state m), i; simpl; done.
  - by rewrite (ClientInput_call_raises _ _ Hv).
Qed.

Lemma set_mode_live c s key events :
  live c s key →
  (sock <~ read socket;;
   on_selector (λ sel, selectors.modify sel sock events);;; ret ()) c
  = (Ok (), with_fields
              (set_selector
                 {| fd_to_key := {[fileno s := with_events key events]};
                    sel_closed := false |}) c).
Proof.
  destruct c as [[addr sel so pm n rd wr lg] m].
  intros (Hso & Hfd & Hsel). simpl in *. subst so sel.
  run_client. by rewrite modify_single.
Qed.

Lemma set_mode_live_after c s key events :
  live c s key →
  live (with_fields
          (set_selector
             {| fd_to_key := {[fileno s := with_events key events]};
                sel_closed := false |}) c) s (with_events key events).
Proof. by intros (? & ? & ?). Qed.

(** *** The two phases of [__process_events] *)

Lemma process_events_read_eq io c :
  process_events io EVENT_READ c =
  match read_outcome io with
  | ReadIncomplete => (Ok (), c)
  | ReadComplete d =>
    match process_response (Some d)
            (with_fields (set_reader {| obj := Some d |}) c) with
    | (Ok _, c') =>
      set_write_mode (with_fields (set_reader {| obj := None |}) c')
    | (Raise e, c') => (Raise e, c')
    end
  | ReadFault e => (Raise e, c)
  end.
Proof.
  unfold process_events.
  change (negb (Z.land EVENT_READ EVENT_READ =? 0)) with true.
  change (negb (Z.land EVENT_READ EVENT_WRITE =? 0)) with false.
  cbv iota. rewrite bind_ret_unit. unfold reader_read.
  destruct (read_outcome io) as [|d|e]; [done| |done].
  unfold bind at 1 2. unfold update at 1, ret at 1. cbv iota beta.
  unfold bind at 1. unfold read at 1. simpl.
  unfold bind at 1.
  destruct (process_response _ _) as [[[]|e] c']; [|done].
  unfold bind at 1. unfold reader_reset, update. done.
Qed.

Lemma process_events_write_eq io c :
  process_events io EVENT_WRITE c =
  match proto_message (fields c) with
  | None => (Raise AttributeError, c)
  | Some m =>
    match buffer m with
    | [] => (Raise AssertionError, c)
    | _ :: _ =>
      let c1 := with_fields (set_writer {| writer_buffer := buffer m |}) c in
      match write_outcome io with
      | WriteIncomplete => (Ok (), with_fields (logging (DebugSent (payload m))) c1)
      | WriteComplete =>
        set_read_mode
          (with_fields (set_proto_message (Some (ProtoMessage.reset m)))
             (with_fields (logging (DebugSent (payload m))) c1))
      | WriteFault e => (Raise e, c1)
      end
    end
  end.
Proof.
  unfold process_events.
  change (negb (Z.land EVENT_WRITE EVENT_READ =? 0)) with false.
  change (negb (Z.land EVENT_WRITE EVENT_WRITE =? 0)) with true.
  cbv iota. unfold bind at 1. unfold ret at 1. cbv iota beta.
  unfold bind at 1. unfold read at 1. cbv iota beta.
  destruct (proto_message (fields c)) as [m|]; [|done].
  destruct (buffer m) as [|b bs]; [done|].
  unfold writer_write.
  destruct (write_outcome io) as [| |e]; run_client; done.
Qed.

End ClientFacts.

(** *** [tick()] *)

Lemma tick_events_single io key mask c :
  tick_events io [(key, mask)] c =
  match process_events io mask c with
  | (Ok _, c') => (Ok (), c')
  | (Raise e, c') =>
    if catches connection_faults e
    then stop io (with_fields (logging (DebugDisconnected e)) c')
    else (Raise e, c')
  end.
Proof.
  cbn [tick_events]. rewrite bind_ret_unit. unfold try_except.
  fold connection_faults.
  destruct (process_events io mask c) as [[[]|e] c']; [done|].
  destruct (catches connection_faults e); [|done].
  unfold bind at 1. unfold update at 1. done.
Qed.

(** On a live client, [tick()] finds at most the one event of its
    socket. *)
Lemma tick_live io c s key :
  live c s key →
  tick io c =
  let mask := Z.land (os_ready io (fileno s)) (key_events key) in
  if mask =? 0 then (Ok (), c) else tick_events io [(key, mask)] c.
Proof.
  intros (Hso & Hfd & Hsel). unfold tick, bind at 1, read at 1.
  cbv iota beta. rewrite Hsel, get_map_truth_single. cbv iota. simpl negb.
  cbv iota. rewrite select_single. cbv zeta.
  by destruct (_ =? 0).
Qed.

(** After [stop()], [tick()] only logs that the client is not connected. *)
Lemma tick_stopped io c :
  stopped c →
  tick io c = (Ok (), with_fields (logging ErrorNotConnected) c).
Proof.
  intros (_ & Hsel). unfold tick, bind at 1, read at 1.
  cbv iota beta. by rewrite Hsel.
Qed.

(** The event of a live client under a single interest, when the
    operating system reports it ready. *)
Lemma tick_ready io c s key events :
  live c s key →
  key_events key = events →
  one_interest events →
  Z.land (os_ready io (fileno s)) events ≠ 0 →
  tick io c = tick_events io [(key, events)] c.
Proof.
  intros Hlive Hev Hone Hready. rewrite (tick_live io c s key Hlive).
  cbv zeta. rewrite Hev.
  destruct (mask_one_interest (os_ready io (fileno s)) events Hone)
    as [Hz|Hm]; [done|].
  rewrite Hm. destruct (Z.eqb_spec events 0) as [->|]; [|done].
  by destruct Hone.
Qed.

(** *** Faults that leave [tick()] *)

(** C10.  When [tick()] processes a writable event and the in-flight
    message has an empty (or absent) buffer, the assertion fails:
    [tick()] raises [AssertionError], and nothing was handed to the
    writer or sent, the client is as it was. *)
Theorem tick_asserts_buffer io c s key m :
  live c s key →
  key_events key = EVENT_WRITE →
  Z.land (os_ready io (fileno s)) EVENT_WRITE ≠ 0 →
  proto_message (fields c) = Some m →
  buffer m = [] →
  tick io c = (Raise AssertionError, c).
Proof.
  intros Hlive Hev Hready Hm Hbuf.
  rewrite (tick_ready io c s key EVENT_WRITE) by (done || by right).
  rewrite tick_events_single, process_events_write_eq, Hm, Hbuf.
  reflexivity.
Qed.

Lemma tick_asserts_buffer_witness :
  tick quiet told_to_stop = (Raise AssertionError, told_to_stop).
Proof.
  apply (tick_asserts_buffer quiet told_to_stop {| fileno := 3 |}
           {| key_fileobj := {| fileno := 3 |}; key_fd := 3;
              key_events := EVENT_WRITE |}
           {| payload := None; buffer := [] |}).
  - repeat split; vm_compute; congruence.
  - reflexivity.
  - vm_compute. congruence.
  - reflexivity.
  - reflexivity.
Defined.

(** C3.  When the message field of a decoded response holds a value that
    is the value of no [ClientInput] member, [tick()] raises the
    [ValueError] of the failed enum lookup, which its handler does not
    catch, and the state machine is as it was. *)
Theorem tick_unknown_kind io c s key d v :
  live c s key →
  key_events key = EVENT_READ →
  Z.land (os_ready io (fileno s)) EVENT_READ ≠ 0 →
  read_outcome io = ReadComplete d →
  d !! "message"%string = Some v →
  (∀ i, v ≠ PyStr (ClientInput_value i)) →
  (tick io c).1 = Raise ValueError ∧
  catches connection_faults ValueError = false ∧
  fsm (tick io c).2 = fsm c.
Proof.
  intros Hlive Hev Hready Hread Hd Hv.
  rewrite (tick_ready io c s key EVENT_READ) by (done || by left).
  rewrite tick_events_single, process_events_read_eq, Hread.
  unfold process_response. run_client.
  rewrite Hd, (ClientInput_call_unknown v Hv). done.
Qed.

Lemma tick_unknown_kind_witness :
  (tick (receiving (response "unknown_value")) awaiting_client).1
  = Raise ValueError ∧
  catches connection_faults ValueError = false ∧
  fsm (tick (receiving (response "unknown_value")) awaiting_client).2
  = fsm awaiting_client.
Proof.
  apply (tick_unknown_kind (receiving (response "unknown_value"))
           awaiting_client {| fileno := 3 |}
           {| key_fileobj := {| fileno := 3 |}; key_fd := 3;
              key_events := EVENT_READ |}
           (response "unknown_value") (PyStr "unknown_value")).
  - repeat split; vm_compute; congruence.
  - reflexivity.
  - vm_compute. congruence.
  - reflexivity.
  - reflexivity.
  - intros []; discriminate.
Defined.

(** *** What one event does to a live client *)

Section LiveClient.
Variable serialize : Payload → list Byte.byte.
Variables (c : Client) (s : socket_obj) (key : SelectorKey).
Hypothesis c_live : live c s key.
Hypothesis c_table : transitions (fsm c) = client_transitions serialize.

(** The read phase: a completed read that is processed normally ends
    with write interest; anything else leaves socket and selector alone. *)
Lemma read_phase io :
  let rc := process_events io EVENT_READ c in
  transitions (fsm rc.2) = transitions (fsm c) ∧
  match rc.1 with
  | Ok _ =>
    match read_outcome io with
    | ReadComplete _ => live rc.2 s (with_events key EVENT_WRITE)
    | _ => same_core c rc.2
    end
  | Raise e =>
    same_core c rc.2 ∧
    (read_outcome io = ReadFault e ∨ catches connection_faults e = false)
  end.
Proof.
  cbv zeta. rewrite process_events_read_eq.
  destruct (read_outcome io) as [|d|e]; simpl.
  - done.
  - pose proof (process_response_core serialize (Some d)
                  (with_fields (set_reader {| obj := Some d |}) c) c_table)
      as [Hcore Hraise].
    destruct (process_response _ _) as [[[]|e] c'] eqn:Hresp; simpl in *.
    + assert (Hlive : live (with_fields (set_reader {| obj := None |}) c')
                        s key).
      { apply (same_core_live c); [|done]. destruct Hcore as (? & ? & ?).
        by repeat split. }
      unfold set_write_mode.
      rewrite (set_mode_live _ s key EVENT_WRITE Hlive). simpl.
      split; [by destruct Hcore as (_ & _ & ?)|].
      by apply set_mode_live_after.
    + split; [by destruct Hcore as (_ & _ & ?)|]. split; [done|by right].
  - split; [done|]. split; [done|by left].
Qed.

(** The write phase, likewise, ends with read interest. *)
Lemma write_phase io :
  let rc := process_events io EVENT_WRITE c in
  transitions (fsm rc.2) = transitions (fsm c) ∧
  match rc.1 with
  | Ok _ =>
    match write_outcome io with
    | WriteComplete => live rc.2 s (with_events key EVENT_READ)
    | _ => same_core c rc.2
    end
  | Raise e =>
    same_core c rc.2 ∧
    (write_outcome io = WriteFault e ∨ catches connection_faults e = false)
  end.
Proof.
  cbv zeta. rewrite process_events_write_eq.
  destruct (proto_message (fields c)) as [m|]; [|by repeat split; right].
  destruct (buffer m) as [|b bs]; [by repeat split; right|].
  destruct (write_outcome io) as [| |e]; simpl.
  - done.
  - match goal with
    | |- context [set_read_mode ?c1] =>
      assert (Hlive : live c1 s key) by (by apply (same_core_live c));
      unfold set_read_mode;
      rewrite (set_mode_live c1 s key EVENT_READ Hlive)
    end.
    simpl. split; [done|]. by destruct c_live as (? & ? & ?).
  - split; [done|]. split; [done|by left].
Qed.

(** Either way the client stays live under a single interest, and an
    exception leaves socket and selector as they were. *)
Lemma process_events_live io :
  one_interest (key_events key) →
  let rc := process_events io (key_events key) c in
  transitions (fsm rc.2) = transitions (fsm c) ∧
  socket (fields rc.2) = Some s ∧
  (∃ key', live rc.2 s key' ∧ one_interest (key_events key')) ∧
  (raised rc.1 = true → same_core c rc.2).
Proof.
  intros Hone. cbv zeta.
  assert (Hkeep : ∀ c', same_core c c' →
            socket (fields c') = Some s ∧
            (∃ key', live c' s key' ∧ one_interest (key_events key'))).
  { intros c' Hcore. pose proof (same_core_live c c' s key Hcore c_live).
    split; [by destruct H as (? & _)|]. by exists key. }
  destruct Hone as [Hev|Hev]; rewrite Hev.
  - destruct (read_phase io) as [Htr Hres]. split; [done|].
    destruct (process_events io EVENT_READ c).1 as [[]|e]; simpl.
    + destruct (read_outcome io);
        [by destruct (Hkeep _ Hres)| |by destruct (Hkeep _ Hres)].
      split; [by destruct Hres as (? & _)|]. split; [|done].
      eexists. split; [done|]. by right.
    + destruct Hres as [Hcore _]. by destruct (Hkeep _ Hcore).
  - destruct (write_phase io) as [Htr Hres]. split; [done|].
    destruct (process_events io EVENT_WRITE c).1 as [[]|e]; simpl.
    + destruct (write_outcome io);
        [by destruct (Hkeep _ Hres)| |by destruct (Hkeep _ Hres)].
      split; [by destruct Hres as (? & _)|]. split; [|done].
      eexists. split; [done|]. by left.
    + destruct Hres as [Hcore _]. by destruct (Hkeep _ Hcore).
Qed.

End LiveClient.

(** *** Faults that [tick()] catches *)

(** C5, as the code has it.  An exception raised while [tick()] processes
    the event of a live client is caught exactly when its class is
    [RuntimeError], [ConnectionRefusedError] or [ConnectionResetError],
    or a subclass of one of them: [tick()] then logs it, calls [stop()],
    returns normally and leaves the client stopped.  Any other exception
    leaves [tick()], and the client stays live. *)
Theorem tick_connection_fault serialize io c s key e :
  live c s key →
  one_interest (key_events key) →
  transitions (fsm c) = client_transitions serialize →
  Z.land (os_ready io (fileno s)) (key_events key) ≠ 0 →
  (process_events io (key_events key) c).1 = Raise e →
  if catches connection_faults e
  then tick io c
       = stop io (with_fields (logging (DebugDisconnected e))
                    (process_events io (key_events key) c).2) ∧
       (tick io c).1 = Ok () ∧
       stopped (tick io c).2
  else (tick io c).1 = Raise e ∧
       live (tick io c).2 s key.
Proof.
  intros Hlive Hone Htable Hready Hraise.
  rewrite (tick_ready io c s key (key_events key)) by done.
  rewrite tick_events_single.
  destruct (process_events_live serialize c s key Hlive Htable io Hone)
    as (_ & Hso & _ & Hcore).
  destruct (process_events io (key_events key) c) as [r c'].
  cbn [fst snd] in *. subst r. destruct (catches connection_faults e).
  - split; [done|].
    by destruct (stop_open io (with_fields (logging (DebugDisconnected e)) c')
                   s Hso) as (? & ? & _).
  - split; [done|]. cbn [snd]. apply (same_core_live c); auto.
Qed.

Lemma tick_connection_fault_witness :
  tick (failing_read ConnectionResetError) awaiting_client
  = stop (failing_read ConnectionResetError)
      (with_fields (logging (DebugDisconnected ConnectionResetError))
         (process_events (failing_read ConnectionResetError) EVENT_READ
            awaiting_client).2) ∧
  (tick (failing_read ConnectionResetError) awaiting_client).1 = Ok () ∧
  stopped (tick (failing_read ConnectionResetError) awaiting_client).2.
Proof.
  apply (tick_connection_fault tag_serialize
           (failing_read ConnectionResetError) awaiting_client
           {| fileno := 3 |}
           {| key_fileobj := {| fileno := 3 |}; key_fd := 3;
              key_events := EVENT_READ |}
           ConnectionResetError).
  - repeat split; vm_compute; congruence.
  - by left.
  - reflexivity.
  - vm_compute. congruence.
  - reflexivity.
Defined.

(** C5 as stated fails: a [BrokenPipeError] raised by the send of a
    writable event is a transport-level failure that [tick()] does not
    catch; it leaves [tick()], no [stop()] is made, and the socket stays
    registered. *)
Lemma tick_broken_pipe_escapes :
  issubclass BrokenPipeError ConnectionError = true ∧
  (tick (failing_write BrokenPipeError) connected_client).1
  = Raise BrokenPipeError ∧
  socket (fields (tick (failing_write BrokenPipeError) connected_client).2)
  = Some {| fileno := 3 |} ∧
  registered_events (tick (failing_write BrokenPipeError) connected_client).2
  = Some EVENT_WRITE.
Proof. repeat split; vm_compute; reflexivity. Qed.

(** *** Sessions *)

Lemma same_core_stopped c c' : same_core c c' → stopped c → stopped c'.
Proof.
  intros (Hso & Hsel & _) (? & ?). unfold stopped. by rewrite Hso, Hsel.
Qed.

Lemma registered_events_live c s key :
  live c s key → registered_events c = Some (key_events key).
Proof.
  intros (Hso & _ & Hsel). unfold registered_events.
  rewrite Hso, Hsel. simpl. by rewrite lookup_singleton_eq.
Qed.

Lemma registered_events_stopped c : stopped c → registered_events c = None.
Proof. intros (Hso & _). unfold registered_events. by rewrite Hso. Qed.

Section SessionFacts.
Variable serialize : Payload → list Byte.byte.

Lemma connect_init addr fd player_name :
  0 ≤ fd →
  (connect serialize player_name (init serialize addr fd)).1 = Ok () ∧
  session_inv serialize {| fileno := fd |}
    (connect serialize player_name (init serialize addr fd)).2.
Proof.
  intros Hfd. run_client.
  unfold selectors.register, selectors.fileobj_lookup. simpl.
  destruct (Z.ltb_spec fd 0) as [|_]; [lia|]. simpl.
  split; [done|]. split; [done|]. left. eexists. split.
  - split; [done|]. split; [done|]. simpl. by rewrite insert_empty.
  - by right.
Qed.

Lemma connect_same_core player_name c s :
  session_inv serialize s c →
  same_core c (connect serialize player_name c).2.
Proof.
  intros [_ [(key & (Hso & Hfd & Hsel) & _)|(Hso & Hsel)]];
    destruct c as [[addr sel so pm n rd wr lg] m]; simpl in *; subst so sel;
    run_client; [|done].
  pose proof (register_single s key Hfd EVENT_WRITE) as Hreg.
  destruct (selectors.register _ _ _) as [[] sel']; simpl in *;
    by subst sel'.
Qed.

Lemma same_core_inv s c c' :
  same_core c c' → session_inv serialize s c → session_inv serialize s c'.
Proof.
  intros Hcore [Htable Hshape]. split.
  - destruct Hcore as (_ & _ & ->). done.
  - destruct Hshape as [(key & Hlive & Hone)|Hstopped].
    + left. exists key. split; [|done]. by apply (same_core_live c).
    + right. by apply (same_core_stopped c).
Qed.

Lemma stop_inv io s c :
  session_inv serialize s c → session_inv serialize s (stop io c).2.
Proof.
  intros Hinv. pose proof Hinv as [Htable Hshape].
  destruct Hshape as [(key & Hlive & _)|Hstopped].
  - destruct Hlive as (Hso & _).
    destruct (stop_open io c s Hso) as (_ & Hstopped & Hfsm).
    split; [by rewrite Hfsm|by right].
  - destruct Hstopped as [Hso Hsel].
    destruct (stop_none io c Hso) as (_ & Hcore & _).
    by apply (same_core_inv s c).
Qed.

Lemma tick_inv io s c :
  session_inv serialize s c → session_inv serialize s (tick io c).2.
Proof.
  intros Hinv. pose proof Hinv as [Htable Hshape].
  destruct Hshape as [(key & Hlive & Hone)|Hstopped].
  - rewrite (tick_live io c s key Hlive). cbv zeta.
    destruct (_ =? 0); [split; [done|left; eauto]|].
    rewrite tick_events_single.
    destruct (process_events_live serialize c s key Hlive Htable io Hone)
      as (Htr & Hso & Hkeep & _).
    destruct (mask_one_interest (os_ready io (fileno s)) _ Hone)
      as [Hz|Hm].
    { (* an empty mask makes both phases no-ops *)
      rewrite Hz. unfold process_events. simpl. run_client.
      split; [done|]. left. exists key. split; [|done].
      by destruct c as [[]]. }
    rewrite Hm.
    destruct (process_events io (key_events key) c) as [[[]|e] c'];
      cbn [fst snd] in *.
    + split; [congruence|by left].
    + destruct (catches connection_faults e).
      * destruct (stop_open io
                    (with_fields (logging (DebugDisconnected e)) c') s Hso)
          as (_ & Hstopped & Hfsm).
        split; [|by right]. rewrite Hfsm. simpl. congruence.
      * split; [simpl; congruence|by left].
  - rewrite (tick_stopped io c Hstopped).
    by apply (same_core_inv s c).
Qed.

Lemma call_inv op s c :
  session_inv serialize s c → session_inv serialize s (call serialize op c).2.
Proof.
  intros Hinv. destruct op as [player_name|io|io]; simpl.
  - apply (same_core_inv s c); [|done]. by apply (connect_same_core _ _ s).
  - by apply tick_inv.
  - by apply stop_inv.
Qed.

Lemma session_keeps_inv calls : ∀ s c,
  session_inv serialize s c → session_inv serialize s (session serialize calls c).
Proof.
  induction calls as [|op calls IH]; intros s c Hinv; [done|].
  simpl. apply IH. by apply call_inv.
Qed.

End SessionFacts.

(** *** The handshake *)

(** What [tick()] does with a completed read whose message names the
    input [i], when the table declares a move for it. *)
Lemma tick_response serialize io c s key d i :
  live c s key →
  key_events key = EVENT_READ →
  Z.land (os_ready io (fileno s)) EVENT_READ ≠ 0 →
  read_outcome io = ReadComplete d →
  d !! "message"%string = Some (PyStr (ClientInput_value i)) →
  transitions (fsm c) = client_transitions serialize →
  raised (transition (fsm c) i (fields c)).1.1 = false →
  let step := transition (fsm c) i
                (logging (DebugReceived (Some d))
                   (set_reader {| obj := Some d |} (fields c))) in
  (tick io c).1 = Ok () ∧
  fsm (tick io c).2 = step.1.2 ∧
  proto_message (fields (tick io c).2) = proto_message step.2 ∧
  registered_events (tick io c).2 = Some EVENT_WRITE.
Proof.
  intros Hlive Hev Hready Hread Hd Htable Hdeclared. cbv zeta.
  rewrite (tick_ready io c s key EVENT_READ) by (done || by left).
  rewrite tick_events_single, process_events_read_eq, Hread.
  destruct c as [[addr sel so pm n rd wr lg] m].
  destruct Hlive as (Hso & Hfd & Hsel). simpl in *. subst so sel.
  unfold process_response. run_client. rewrite Hd.
  pose proof (ClientInput_of_value_value i) as Hi.
  destruct (ClientInput_call (PyStr (ClientInput_value i))) as [j|];
    [|done]. injection Hi as ->. simpl.
  rewrite (client_step serialize) in Hdeclared |- * by done.
  destruct (state m), i; simpl in *; try done;
    rewrite (modify_single s key Hfd EVENT_WRITE); simpl;
    unfold registered_events; simpl; by rewrite lookup_singleton_eq.
Qed.

(** C6.  On a client that waits for a response after [connect()]: a
    decoded response with message [INIT] moves the state from
    [DISCONNECTED] to [CONNECTED] and makes the ready message the next
    one to send; from [CONNECTED], a response with message [START] moves
    the state to [PLAYING] and makes an input message with the three
    commands FORWARD, LEFT, FIRE the next one to send. *)
Theorem tick_handshake serialize io c s key d :
  live c s key →
  key_events key = EVENT_READ →
  Z.land (os_ready io (fileno s)) EVENT_READ ≠ 0 →
  read_outcome io = ReadComplete d →
  transitions (fsm c) = client_transitions serialize →
  (state (fsm c) = DISCONNECTED →
   d !! "message"%string = Some (PyStr "INIT") →
   (tick io c).1 = Ok () ∧
   state (fsm (tick io c).2) = CONNECTED ∧
   proto_message (fields (tick io c).2)
   = Some {| payload := Some ReadyPayload;
             buffer := serialize ReadyPayload |} ∧
   registered_events (tick io c).2 = Some EVENT_WRITE) ∧
  (state (fsm c) = CONNECTED →
   d !! "message"%string = Some (PyStr "START") →
   ∃ commands,
     commands ≠ [] ∧
     (tick io c).1 = Ok () ∧
     state (fsm (tick io c).2) = PLAYING ∧
     proto_message (fields (tick io c).2)
     = Some {| payload := Some (InputPayload commands);
               buffer := serialize (InputPayload commands) |} ∧
     registered_events (tick io c).2 = Some EVENT_WRITE).
Proof.
  intros Hlive Hev Hready Hread Htable. split; intros Hstate Hd.
  - destruct (tick_response serialize io c s key d INIT)
      as (Hok & Hfsm & Hpm & Hreg); try done.
    { rewrite (client_step serialize) by done. by rewrite Hstate. }
    rewrite Hok, Hfsm, Hpm, Hreg.
    rewrite (client_step serialize) by done. by rewrite Hstate.
  - exists ["FORWARD"; "LEFT"; "FIRE"]%string. split; [done|].
    destruct (tick_response serialize io c s key d START)
      as (Hok & Hfsm & Hpm & Hreg); try done.
    { rewrite (client_step serialize) by done. by rewrite Hstate. }
    rewrite Hok, Hfsm, Hpm, Hreg.
    rewrite (client_step serialize) by done. by rewrite Hstate.
Qed.

Lemma tick_handshake_witness :
  ((tick (receiving (response "INIT")) awaiting_client).1 = Ok () ∧
   state (fsm (tick (receiving (response "INIT")) awaiting_client).2)
   = CONNECTED ∧
   proto_message
     (fields (tick (receiving (response "INIT")) awaiting_client).2)
   = Some {| payload := Some ReadyPayload;
             buffer := tag_serialize ReadyPayload |} ∧
   registered_events (tick (receiving (response "INIT")) awaiting_client).2
   = Some EVENT_WRITE) ∧
  (∃ commands,
     commands ≠ [] ∧
     (tick (receiving (response "START")) ready_client).1 = Ok () ∧
     state (fsm (tick (receiving (response "START")) ready_client).2)
     = PLAYING ∧
     proto_message
       (fields (tick (receiving (response "START")) ready_client).2)
     = Some {| payload := Some (InputPayload commands);
               buffer := tag_serialize (InputPayload commands) |} ∧
     registered_events (tick (receiving (response "START")) ready_client).2
     = Some EVENT_WRITE).
Proof.
  split.
  - apply (tick_handshake tag_serialize (receiving (response "INIT"))
             awaiting_client {| fileno := 3 |}
             {| key_fileobj := {| fileno := 3 |}; key_fd := 3;
                key_events := EVENT_READ |} (response "INIT")).
    + repeat split; vm_compute; congruence.
    + reflexivity.
    + vm_compute. congruence.
    + reflexivity.
    + reflexivity.
    + reflexivity.
    + reflexivity.
  - apply (tick_handshake tag_serialize (receiving (response "START"))
             ready_client {| fileno := 3 |}
             {| key_fileobj := {| fileno := 3 |}; key_fd := 3;
                key_events := EVENT_READ |} (response "START")).
    + repeat split; vm_compute; congruence.
    + reflexivity.
    + vm_compute. congruence.
    + reflexivity.
    + reflexivity.
    + reflexivity.
    + reflexivity.
Defined.

(** *** The states of the client *)

(** C7 as stated fails: the enumeration has a member besides
    [DISCONNECTED], [CONNECTED] and [PLAYING]. *)
Lemma ClientState_has_fourth_member :
  ∃ s : ClientState, s ≠ DISCONNECTED ∧ s ≠ CONNECTED ∧ s ≠ PLAYING.
Proof. exists READY. by repeat split. Qed.

(** C7, as the code has it.  [ClientState] has exactly the four members
    [DISCONNECTED], [CONNECTED], [READY] and [PLAYING]; the table of the
    client has rows for [DISCONNECTED], [CONNECTED] and [PLAYING] only
    and every entry moves to one of these three; a new client starts in
    [DISCONNECTED]; in [PLAYING] the input [UPDATE] stays in [PLAYING]
    and the input [STOP] goes back to [DISCONNECTED]. *)
Theorem ClientState_table serialize :
  (∀ s : ClientState, s ∈ [DISCONNECTED; CONNECTED; READY; PLAYING]) ∧
  NoDup [DISCONNECTED; CONNECTED; READY; PLAYING] ∧
  dom (client_transitions serialize)
  = ({[DISCONNECTED; CONNECTED; PLAYING]} : gset ClientState) ∧
  (∀ m s i e,
     transitions m = client_transitions serialize →
     declared m s i = Some e →
     entry_state e ∈ [DISCONNECTED; CONNECTED; PLAYING]) ∧
  (∀ addr fd, state (fsm (init serialize addr fd)) = DISCONNECTED) ∧
  (∀ m f,
     transitions m = client_transitions serialize →
     state m = PLAYING →
     state (transition m UPDATE f).1.2 = PLAYING ∧
     state (transition m STOP f).1.2 = DISCONNECTED).
Proof.
  split; [intros []; set_solver|].
  split; [compute_done|].
  split; [unfold client_transitions; rewrite !dom_insert_L; set_solver|].
  split; [|split; [done|]].
  - intros m s i e Htable. unfold declared. rewrite Htable.
    destruct s, i; vm_compute; intros [= <-]; set_solver.
  - intros m f Htable Hstate.
    rewrite !(client_step serialize) by done. by rewrite Hstate.
Qed.

Lemma client_targets serialize
    (m : FiniteStateMachine ClientState ClientInput ClientFields) s i e :
  transitions m = client_transitions serialize →
  declared m s i = Some e →
  entry_state e ≠ READY.
Proof.
  intros Htable. unfold declared. rewrite Htable.
  destruct s, i; vm_compute; by intros [= <-].
Qed.

(** C9.  Whatever inputs are fed through [transition] to the machine of a
    new client, which starts in [DISCONNECTED] with the table of
    [__init__], its state is never [READY]. *)
Theorem ready_unreachable serialize addr fd inputs w :
  bool_decide
    (state (run (fsm (init serialize addr fd)) inputs w).1 = READY)
  = false.
Proof.
  apply bool_decide_eq_false. apply run_avoids; [|done].
  intros s i e. by apply (client_targets serialize).
Qed.

(** *** [stop()] twice *)

(** C2 fails on the code.  Whatever the first [stop()] did, it left
    [None] in the socket attribute, and the second [stop()] raises the
    [AttributeError] of calling [close] on [None], which [except OSError]
    does not catch.  So it is after a fault that [tick()] caught: [tick()]
    returns normally, the client is stopped, and the next [stop()]
    raises. *)
Theorem stop_twice_raises :
  (∀ io io' c, (stop io' (stop io c).2).1 = Raise AttributeError) ∧
  catches [OSError] AttributeError = false ∧
  (tick (failing_read ConnectionResetError) awaiting_client).1 = Ok () ∧
  (stop quiet
     (tick (failing_read ConnectionResetError) awaiting_client).2).1
  = Raise AttributeError.
Proof.
  split; [|by vm_compute].
  intros io io' c.
  by destruct (stop_none io' (stop io c).2 (stop_socket io c)) as (? & _).
Qed.

(** The first [stop()] of a client that holds a socket returns normally,
    whether or not the socket is registered and whether or not closing
    it fails. *)
Lemma stop_first_returns io c s :
  socket (fields c) = Some s → (stop io c).1 = Ok ().
Proof. intros Hso. by destruct (stop_open io c s Hso). Qed.

(** *** The registration along a session *)

(** C8.  At every point of a session that began with [connect()], a
    registration in the selector of the client is that of its socket
    and carries exactly one interest, read or write; there is one as
    long as the client holds its socket.  A [tick()] that completes a
    read and returns normally leaves write interest; one that completes
    a write and returns normally leaves read interest. *)
Theorem registration_single_interest serialize addr fd player_name calls :
  0 ≤ fd →
  let c := session serialize calls
             (connect serialize player_name (init serialize addr fd)).2 in
  (∀ fd' key,
     fd_to_key (selector (fields c)) !! fd' = Some key →
     fd' = fd ∧ one_interest (key_events key)) ∧
  (socket (fields c) ≠ None →
   ∃ events, registered_events c = Some events ∧ one_interest events) ∧
  (∀ io,
     (tick io c).1 = Ok () →
     (registered_events c = Some EVENT_READ →
      Z.land (os_ready io fd) EVENT_READ ≠ 0 →
      (∃ d, read_outcome io = ReadComplete d) →
      registered_events (tick io c).2 = Some EVENT_WRITE) ∧
     (registered_events c = Some EVENT_WRITE →
      Z.land (os_ready io fd) EVENT_WRITE ≠ 0 →
      write_outcome io = WriteComplete →
      registered_events (tick io c).2 = Some EVENT_READ)).
Proof.
  intros Hfd c.
  assert (Hinv : session_inv serialize {| fileno := fd |} c).
  { apply session_keeps_inv. by apply connect_init. }
  destruct Hinv as [Htable [(key & Hlive & Hone)|Hstopped]].
  - pose proof (registered_events_live _ _ _ Hlive) as Hreg.
    split; [|split].
    + destruct Hlive as (_ & _ & ->). simpl. intros fd' key'.
      intros [<- <-]%lookup_singleton_Some. done.
    + intros _. by exists (key_events key).
    + intros io Hok. rewrite Hreg.
      split; intros [= Hev] Hready Hdone.
      * rewrite (tick_ready io c _ key EVENT_READ) in Hok |- *
          by (done || by left).
        rewrite tick_events_single in Hok |- *.
        pose proof (read_phase serialize c _ key Hlive Htable io) as Hphase.
        cbv zeta in Hphase. destruct Hphase as [_ Hphase].
        destruct Hdone as [d Hd]. rewrite Hd in Hphase.
        destruct (process_events io EVENT_READ c) as [[[]|e] c'];
          cbn [fst snd] in *.
        -- by rewrite (registered_events_live c' _ _ Hphase).
        -- destruct Hphase as (_ & [?|Hno]); [done|].
           by rewrite Hno in Hok.
      * rewrite (tick_ready io c _ key EVENT_WRITE) in Hok |- *
          by (done || by right).
        rewrite tick_events_single in Hok |- *.
        pose proof (write_phase c _ key Hlive io) as Hphase.
        cbv zeta in Hphase. destruct Hphase as [_ Hphase].
        rewrite Hdone in Hphase.
        destruct (process_events io EVENT_WRITE c) as [[[]|e] c'];
          cbn [fst snd] in *.
        -- by rewrite (registered_events_live c' _ _ Hphase).
        -- destruct Hphase as (_ & [?|Hno]); [done|].
           by rewrite Hno in Hok.
  - pose proof (registered_events_stopped _ Hstopped) as Hreg.
    destruct Hstopped as (Hso & Hsel). split; [|split].
    + rewrite Hsel. simpl. intros fd' key'. by rewrite lookup_empty.
    + done.
    + intros io _. rewrite Hreg. by split.
Qed.

Lemma registration_single_interest_witness :
  ∃ events,
    registered_events
      (session tag_serialize
         [CallTick sending; CallTick (receiving (response "INIT"))]
         (connect tag_serialize "Player2"
            (init tag_serialize ("localhost"%string, 54879) 3)).2)
    = Some events ∧
    one_interest events.
Proof.
  apply (registration_single_interest tag_serialize
           ("localhost"%string, 54879) 3 "Player2"
           [CallTick sending; CallTick (receiving (response "INIT"))]).
  - vm_compute. congruence.
  - vm_compute. congruence.
Defined.

(** *** The table of the client under [transition] *)

(** In [DISCONNECTED], [INIT] has a guard that returns true: the machine
    moves to [CONNECTED] with the guard's effects in place.  In
    [PLAYING], [STOP] has no guard: the machine moves to [DISCONNECTED]
    and nothing else changes. *)
Lemma transition_declared_witness :
  (∀ f, transition (fsm (init tag_serialize ("localhost"%string, 54879) 3))
          INIT f
        = (Ok CONNECTED,
           set_state (fsm (init tag_serialize ("localhost"%string, 54879) 3))
             CONNECTED,
           (transition_connected tag_serialize DISCONNECTED f).2)) ∧
  (∀ f, transition
          {| state := PLAYING;
             transitions := client_transitions tag_serialize |} STOP f
        = (Ok DISCONNECTED,
           {| state := DISCONNECTED;
              transitions := client_transitions tag_serialize |}, f)).
Proof.
  split; intros f.
  - destruct (transition_declared
                (fsm (init tag_serialize ("localhost"%string, 54879) 3)) INIT
                {| entry_state := CONNECTED;
                   entry_callback := Some (transition_connected tag_serialize) |}
                f eq_refl) as [_ Hguard].
    destruct (Hguard _ eq_refl) as (r & f' & Hcall & _ & Htrue & _).
    injection Hcall as <- <-. by apply Htrue.
  - by apply (transition_declared
                {| state := PLAYING;
                   transitions := client_transitions tag_serialize |} STOP
                {| entry_state := DISCONNECTED; entry_callback := None |}
                f eq_refl).
Defined.

(** In [DISCONNECTED], [START] is not declared. *)
Lemma transition_undeclared_witness :
  transition (fsm connected_client) START (fields connected_client)
  = (Raise KeyError, fsm connected_client, fields connected_client).
Proof. by apply (transition_undeclared (fsm connected_client) START). Defined.

(** * Further properties of the client *)

(** ** What the calls leave alone *)

(** [stop()] touches the socket, the selector and the log only. *)
Lemma stop_frame io c :
  fsm (stop io c).2 = fsm c ∧
  proto_message (fields (stop io c).2) = proto_message (fields c) ∧
  processed_count (fields (stop io c).2) = processed_count (fields c) ∧
  reader (fields (stop io c).2) = reader (fields c) ∧
  writer (fields (stop io c).2) = writer (fields c).
Proof.
  destruct c as [[addr sel so pm n rd wr lg] m]. run_client.
  destruct so as [s|]; simpl.
  - destruct (selectors.unregister sel (Some s)) as [[k|e] sel'] eqn:Hu; simpl.
    + destruct (close_fails io); simpl; done.
    + rewrite (unregister_raises _ _ _ _ Hu). simpl.
      destruct (close_fails io); simpl; done.
  - done.
Qed.

(** Without a registration [tick()] logs an error and returns. *)
Lemma tick_unregistered io c :
  selectors.get_map_truth (selector (fields c)) = false →
  tick io c = (Ok (), with_fields (logging ErrorNotConnected) c).
Proof.
  intros Hmap. unfold tick, bind at 1, read at 1. cbv iota beta.
  by rewrite Hmap.
Qed.

Section ResponseFacts.
Variable serialize : Payload → list Byte.byte.

(** What processing a decoded response does besides what
    [process_response_core] says: it raises [KeyError] or [ValueError]
    only, then with machine, message and count as they were; it counts
    the response when it returns; it keeps a message at hand and keeps
    the state away from [READY]. *)
Lemma process_response_effects d c :
  transitions (fsm c) = client_transitions serialize →
  let rc := process_response (Some d) c in
  match rc.1 with
  | Ok _ =>
    processed_count (fields rc.2) = processed_count (fields c) + 1 ∧
    (∃ i e, d !! "message"%string = Some (PyStr (ClientInput_value i)) ∧
            declared (fsm c) (state (fsm c)) i = Some e ∧
            fsm rc.2 = set_state (fsm c) (entry_state e))
  | Raise e =>
    (e = KeyError ∨ e = ValueError) ∧
    fsm rc.2 = fsm c ∧
    proto_message (fields rc.2) = proto_message (fields c) ∧
    processed_count (fields rc.2) = processed_count (fields c)
  end ∧
  reader (fields rc.2) = reader (fields c) ∧
  writer (fields rc.2) = writer (fields c) ∧
  (is_Some (proto_message (fields c)) →
   is_Some (proto_message (fields rc.2))) ∧
  (state (fsm c) ≠ READY → state (fsm rc.2) ≠ READY).
Proof.
  destruct c as [[addr sel so pm n rd wr lg] m]. simpl. intros Htr.
  unfold process_response. run_client.
  destruct (d !! "message"%string) as [v|] eqn:Hd; simpl; [|by auto 10].
  destruct (ClientInput_call v) as [i|e] eqn:Hv; simpl.
  - assert (v = PyStr (ClientInput_value i)) as ->.
    { unfold ClientInput_call in Hv.
      repeat case_match; simplify_eq;
        match goal with
        | Heq : String.eqb _ _ = true |- _ => apply String.eqb_eq in Heq
        end; by subst. }
    rewrite (client_step serialize) by done.
    destruct m as [st tr]. simpl in *. subst tr.
    destruct st, i; simpl; (split; [|by auto]);
      try (split; [by auto|done]);
      (split; [done|]);
      (let go := fun i =>
         (exists i; eexists; (split; [reflexivity|]); (split; reflexivity)) in
       first [go INIT|go START|go UPDATE|go STOP]).
  - rewrite (ClientInput_call_raises _ _ Hv). by auto 10.
Qed.

End ResponseFacts.

(** ** [tick()] on a live client, case by case *)

Section TickFacts.
Variable serialize : Payload → list Byte.byte.
Variables (c : Client) (s : socket_obj) (key : SelectorKey).
Hypothesis c_live : live c s key.

Lemma tick_read_eq io :
  key_events key = EVENT_READ →
  Z.land (os_ready io (fileno s)) EVENT_READ ≠ 0 →
  transitions (fsm c) = client_transitions serialize →
  tick io c =
  match read_outcome io with
  | ReadIncomplete => (Ok (), c)
  | ReadComplete d =>
    match process_response (Some d)
            (with_fields (set_reader {| obj := Some d |}) c) with
    | (Ok _, c') =>
      (Ok (),
       with_fields
         (set_selector
            {| fd_to_key := {[fileno s := with_events key EVENT_WRITE]};
               sel_closed := false |})
         (with_fields (set_reader {| obj := None |}) c'))
    | (Raise e, c') => (Raise e, c')
    end
  | ReadFault e =>
    if catches connection_faults e
    then stop io (with_fields (logging (DebugDisconnected e)) c)
    else (Raise e, c)
  end.
Proof.
  intros Hev Hready Htable.
  rewrite (tick_ready io c s key EVENT_READ) by (done || by left).
  rewrite tick_events_single, process_events_read_eq.
  destruct (read_outcome io) as [|d|e]; [done| |done].
  pose proof (process_response_core serialize (Some d)
                (with_fields (set_reader {| obj := Some d |}) c) Htable)
    as [Hcore Hraise].
  destruct (process_response _ _) as [[[]|e] c']; cbn [fst snd] in *.
  - assert (Hlive : live (with_fields (set_reader {| obj := None |}) c') s key).
    { apply (same_core_live c); [|done]. destruct Hcore as (? & ? & ?).
      by repeat split. }
    unfold set_write_mode. by rewrite (set_mode_live _ s key EVENT_WRITE Hlive).
  - by rewrite Hraise.
Qed.

Lemma tick_write_eq io :
  key_events key = EVENT_WRITE →
  Z.land (os_ready io (fileno s)) EVENT_WRITE ≠ 0 →
  tick io c =
  match proto_message (fields c) with
  | None => (Raise AttributeError, c)
  | Some m =>
    match buffer m with
    | [] => (Raise AssertionError, c)
    | _ :: _ =>
      let c1 := with_fields (set_writer {| writer_buffer := buffer m |}) c in
      match write_outcome io with
      | WriteIncomplete =>
        (Ok (), with_fields (logging (DebugSent (payload m))) c1)
      | WriteComplete =>
        (Ok (),
         with_fields
           (set_selector
              {| fd_to_key := {[fileno s := with_events key EVENT_READ]};
                 sel_closed := false |})
           (with_fields (set_proto_message (Some (ProtoMessage.reset m)))
              (with_fields (logging (DebugSent (payload m))) c1)))
      | WriteFault e =>
        if catches connection_faults e
        then stop io (with_fields (logging (DebugDisconnected e)) c1)
        else (Raise e, c1)
      end
    end
  end.
Proof.
  intros Hev Hready.
  rewrite (tick_ready io c s key EVENT_WRITE) by (done || by right).
  rewrite tick_events_single, process_events_write_eq.
  destruct (proto_message (fields c)) as [m|]; [|done].
  destruct (buffer m) as [|b bs]; [done|]. cbv zeta.
  destruct (write_outcome io) as [| |e]; [done| |done].
  match goal with
  | |- context [set_read_mode ?c1] =>
    assert (Hlive : live c1 s key) by (by apply (same_core_live c));
    unfold set_read_mode;
    rewrite (set_mode_live c1 s key EVENT_READ Hlive)
  end.
  done.
Qed.

End TickFacts.

(** ** Every client, whatever is called on it *)

Section ClientInvariant.
Variable serialize : Payload → list Byte.byte.
Implicit Types (c : Client) (s : socket_obj).

Lemma init_client_inv addr fd :
  client_inv serialize {| fileno := fd |} (init serialize addr fd).
Proof. split; [done|]. split; [done|]. by left. Qed.

(** [connect()] by the shape of the client: an idle one gets write
    interest (a socket without valid descriptor is refused); a live one
    is refused as registered already, but its message is replaced; a
    stopped one has no socket to connect. *)
Lemma connect_cases player_name c s :
  let rc := connect serialize player_name c in
  fsm rc.2 = fsm c ∧
  processed_count (fields rc.2) = processed_count (fields c) ∧
  (idle c s →
   proto_message (fields rc.2)
   = Some (ProtoMessage.connect_message serialize player_name) ∧
   if fileno s <? 0
   then rc.1 = Raise ValueError ∧ idle rc.2 s
   else rc.1 = Ok () ∧
        live rc.2 s {| key_fileobj := s; key_fd := fileno s;
                       key_events := EVENT_WRITE |}) ∧
  (∀ key, live c s key →
   rc.1 = Raise KeyError ∧ same_core c rc.2 ∧
   proto_message (fields rc.2)
   = Some (ProtoMessage.connect_message serialize player_name)) ∧
  (stopped c →
   rc.1 = Raise AttributeError ∧ same_core c rc.2 ∧
   proto_message (fields rc.2) = proto_message (fields c)).
Proof.
  destruct c as [[addr sel so pm n rd wr lg] m]. cbv zeta.
  split; [|split; [|split; [|split]]].
  - run_client. destruct so; [|done].
    by destruct (selectors.register _ _ _) as [[]].
  - run_client. destruct so; [|done].
    by destruct (selectors.register _ _ _) as [[]].
  - intros (Hso & Hsel). simpl in *. subst so sel. run_client.
    unfold selectors.register, selectors.fileobj_lookup. simpl.
    destruct (Z.ltb_spec (fileno s) 0) as [Hneg|Hpos]; simpl.
    + done.
    + split; [done|]. split; [done|]. split; [done|]. split; [done|].
      simpl. by rewrite insert_empty.
  - intros key (Hso & Hfd & Hsel). simpl in *. subst so sel. run_client.
    unfold selectors.register, selectors.fileobj_lookup. simpl.
    destruct (Z.ltb_spec (fileno s) 0) as [|_]; [lia|]. simpl.
    by rewrite lookup_singleton_eq.
  - intros (Hso & Hsel). simpl in *. subst so sel. by run_client.
Qed.

Lemma connect_client_inv player_name c s :
  client_inv serialize s c →
  client_inv serialize s (connect serialize player_name c).2.
Proof.
  intros (Htable & Hstate & Hshape).
  destruct (connect_cases player_name c s)
    as (Hfsm & _ & Hidle & Hlive & Hstopped).
  split; [by rewrite Hfsm|]. split; [by rewrite Hfsm|].
  destruct Hshape as [Hi|[[(key & Hl & Hone) _]|Hs]].
  - destruct (Hidle Hi) as [Hpm Hres].
    destruct (fileno s <? 0); [left; by destruct Hres|].
    right. left. split; [|by rewrite Hpm].
    eexists. split; [by destruct Hres|]. by right.
  - destruct (Hlive key Hl) as (_ & Hcore & Hpm).
    right. left. split; [|by rewrite Hpm].
    exists key. split; [|done]. by apply (same_core_live c).
  - destruct (Hstopped Hs) as (_ & Hcore & _).
    right. right. by apply (same_core_stopped c).
Qed.

Lemma stop_client_inv io c s :
  client_inv serialize s c → client_inv serialize s (stop io c).2.
Proof.
  intros (Htable & Hstate & Hshape).
  destruct (stop_frame io c) as (Hfsm & _).
  split; [by rewrite Hfsm|]. split; [by rewrite Hfsm|].
  right. right.
  destruct Hshape as [[Hso _]|[[(key & (Hso & _) & _) _]|Hs]].
  - by destruct (stop_open io c s Hso) as (_ & ? & _).
  - by destruct (stop_open io c s Hso) as (_ & ? & _).
  - destruct (stop_none io c (proj1 Hs)) as (_ & Hcore & _).
    by apply (same_core_stopped c).
Qed.

(** After a fault caught by [tick()]: stopped, with the machine as it
    was. *)
Lemma caught_client_inv io e c s :
  transitions (fsm c) = client_transitions serialize →
  state (fsm c) ≠ READY →
  socket (fields c) = Some s →
  client_inv serialize s
    (stop io (with_fields (logging (DebugDisconnected e)) c)).2.
Proof.
  intros Htable Hstate Hso.
  destruct (stop_frame io (with_fields (logging (DebugDisconnected e)) c))
    as (Hfsm & _).
  destruct (stop_open io (with_fields (logging (DebugDisconnected e)) c) s Hso)
    as (_ & Hstopped & _).
  split; [by rewrite Hfsm|]. split; [by rewrite Hfsm|]. by right; right.
Qed.

Lemma tick_client_inv io c s :
  client_inv serialize s c → client_inv serialize s (tick io c).2.
Proof.
  intros Hinv. pose proof Hinv as (Htable & Hstate & Hshape).
  destruct Hshape as [Hi|[[(key & Hl & Hone) Hpm]|Hs]].
  - rewrite tick_unregistered; [|by destruct Hi as (_ & ->)].
    split; [done|]. split; [done|]. left. by destruct Hi.
  - pose proof Hl as (Hso & Hfd & Hsel).
    destruct (mask_one_interest (os_ready io (fileno s)) _ Hone) as [Hz|Hm].
    { rewrite (tick_live io c s key Hl). cbv zeta. by rewrite Hz. }
    assert (Hready : Z.land (os_ready io (fileno s)) (key_events key) ≠ 0).
    { rewrite Hm. by destruct Hone as [-> | ->]. }
    destruct Hone as [Hev|Hev]; rewrite Hev in Hready.
    + rewrite (tick_read_eq serialize c s key Hl io Hev Hready Htable).
      destruct (read_outcome io) as [|d|e]; [done| |].
      * pose proof (process_response_core serialize (Some d)
                      (with_fields (set_reader {| obj := Some d |}) c) Htable)
          as [Hcore _].
        pose proof (process_response_effects serialize d
                      (with_fields (set_reader {| obj := Some d |}) c) Htable)
          as Heff.
        cbv zeta in Heff. destruct Heff as (_ & _ & _ & Hkeep & Hst).
        destruct (process_response _ _) as [[[]|e] c']; cbn [fst snd] in *.
        -- destruct Hcore as (Hcso & _ & Hctr). simpl in Hcso, Hctr.
           split; [simpl; congruence|].
           split; [exact (Hst Hstate)|]. right. left.
           split; [|exact (Hkeep Hpm)].
           exists (with_events key EVENT_WRITE). split; [|by right].
           split; [simpl; congruence|done].
        -- split; [by destruct Hcore as (_ & _ & ->)|].
           split; [exact (Hst Hstate)|]. right. left.
           split; [|exact (Hkeep Hpm)].
           exists key. split; [|by left]. by apply (same_core_live c).
      * destruct (catches connection_faults e); [|done].
        by apply caught_client_inv.
    + rewrite (tick_write_eq c s key Hl io Hev Hready).
      destruct Hpm as [m Hm']. rewrite Hm'.
      destruct (buffer m) as [|b bs]; [done|]. cbv zeta.
      destruct (write_outcome io) as [| |e].
      * split; [done|]. split; [done|]. right. left.
        split; [|by simpl; rewrite Hm']. exists key. split; [done|by right].
      * split; [done|]. split; [done|]. right. left. split; [|done].
        exists (with_events key EVENT_READ). split; [|by left]. done.
      * destruct (catches connection_faults e).
        -- by apply caught_client_inv.
        -- split; [done|]. split; [done|]. right. left.
           split; [|by simpl; rewrite Hm']. exists key. split; [done|by right].
  - rewrite (tick_stopped io c Hs).
    split; [done|]. split; [done|]. right. right. by destruct Hs.
Qed.

Lemma call_client_inv op c s :
  client_inv serialize s c → client_inv serialize s (call serialize op c).2.
Proof.
  destruct op; simpl;
    [apply connect_client_inv|apply tick_client_inv|apply stop_client_inv].
Qed.

Lemma session_client_inv calls : ∀ c s,
  client_inv serialize s c →
  client_inv serialize s (session serialize calls c).
Proof.
  induction calls as [|op calls IH]; intros c s Hinv; [done|].
  simpl. apply IH. by apply call_client_inv.
Qed.

End ClientInvariant.

(** ** The state machine, for any table *)

(** X1.  Whatever inputs are fed to a machine, calls that raise
    included, its table is never changed and its state is the one it
    started in or the target of an entry of the table. *)
Theorem run_stays_in_table {State Input World : Type}
    `{Countable State, Countable Input}
    (m : FiniteStateMachine State Input World) inputs w :
  transitions (run m inputs w).1 = transitions m ∧
  (state (run m inputs w).1 = state m ∨
   ∃ s i e, declared m s i = Some e ∧
            state (run m inputs w).1 = entry_state e).
Proof.
  revert m w. induction inputs as [|i rest IH]; intros m w; [by auto|].
  simpl. pose proof (transition_transitions m i w) as Htr.
  pose proof (transition_state m i w) as Hst.
  destruct (transition m i w) as [[r m'] w']. simpl in *.
  destruct (IH m' w') as [Htr' Hst']. split; [congruence|].
  destruct Hst' as [Hsame|(s & j & e & He & Hto)].
  - rewrite Hsame. destruct Hst as [?|(e & He & Hto)]; [by left|].
    right. eauto.
  - right. exists s, j, e. split; [|done].
    unfold declared in *. by rewrite <- Htr.
Qed.

(** ** Inputs on the wire *)

(** X2.  [ClientInput(value)] succeeds exactly on the string that is the
    value of a member, and gives that member back; on anything else it
    raises [ValueError]. *)
Theorem ClientInput_round_trip :
  (∀ v i, ClientInput_call v = Ok i ↔ v = PyStr (ClientInput_value i)) ∧
  (∀ v e, ClientInput_call v = Raise e → e = ValueError) ∧
  (∀ i j, ClientInput_value i = ClientInput_value j → i = j).
Proof.
  split; [|split].
  - intros v i. split.
    + intros Hcall. unfold ClientInput_call in Hcall.
      repeat case_match; simplify_eq;
        match goal with
        | Heq : String.eqb _ _ = true |- _ => apply String.eqb_eq in Heq
        end; by subst.
    + intros ->. by destruct i.
  - apply ClientInput_call_raises.
  - by intros [] [].
Qed.

(** ** [connect()] and [stop()] *)



(** X4.  [connect()] on a client that is in a session already raises
    [KeyError], as the socket is registered; registration and state
    machine stay as they are, but the message at hand has been replaced
    by a new connect message by then. *)
Theorem connect_twice serialize player_name c s key :
  live c s key →
  let rc := connect serialize player_name c in
  rc.1 = Raise KeyError ∧
  registered_events rc.2 = registered_events c ∧
  fsm rc.2 = fsm c ∧
  proto_message (fields rc.2)
  = Some {| payload := Some (ConnectPayload player_name);
            buffer := serialize (ConnectPayload player_name) |}.
Proof.
  intros Hlive. cbv zeta.
  destruct (connect_cases serialize player_name c s)
    as (Hfsm & _ & _ & Hcase & _).
  destruct (Hcase key Hlive) as (Hraise & Hcore & Hpm).
  split; [done|]. split; [|done].
  rewrite (registered_events_live c s key Hlive).
  by rewrite (registered_events_live _ s key (same_core_live _ _ _ _ Hcore Hlive)).
Qed.

Lemma connect_twice_witness :
  (connect tag_serialize "Player3" awaiting_client).1 = Raise KeyError ∧
  registered_events (connect tag_serialize "Player3" awaiting_client).2
  = registered_events awaiting_client ∧
  fsm (connect tag_serialize "Player3" awaiting_client).2
  = fsm awaiting_client ∧
  proto_message (fields (connect tag_serialize "Player3" awaiting_client).2)
  = Some {| payload := Some (ConnectPayload "Player3");
            buffer := tag_serialize (ConnectPayload "Player3") |}.
Proof.
  apply (connect_twice tag_serialize "Player3" awaiting_client
           {| fileno := 3 |}
           {| key_fileobj := {| fileno := 3 |}; key_fd := 3;
              key_events := EVENT_READ |}).
  repeat split; vm_compute; congruence.
Defined.

(** X6.  [stop()] on a client that holds its socket returns normally and
    leaves it stopped, registered or not and whether or not closing the
    socket fails; state machine, message at hand and count of responses
    stay as they are: [stop()] makes no transition. *)
Theorem stop_releases io c s :
  socket (fields c) = Some s →
  (stop io c).1 = Ok () ∧
  stopped (stop io c).2 ∧
  registered_events (stop io c).2 = None ∧
  fsm (stop io c).2 = fsm c ∧
  proto_message (fields (stop io c).2) = proto_message (fields c) ∧
  processed_count (fields (stop io c).2) = processed_count (fields c).
Proof.
  intros Hso. destruct (stop_open io c s Hso) as (Hok & Hstopped & _).
  destruct (stop_frame io c) as (Hfsm & Hpm & Hn & _).
  by rewrite (registered_events_stopped _ Hstopped).
Qed.

Lemma stop_releases_witness :
  (stop {| os_ready := os_ready quiet; read_outcome := ReadIncomplete;
           write_outcome := WriteIncomplete; close_fails := true |}
     playing_client).1 = Ok () ∧
  stopped
    (stop {| os_ready := os_ready quiet; read_outcome := ReadIncomplete;
             write_outcome := WriteIncomplete; close_fails := true |}
       playing_client).2 ∧
  registered_events
    (stop {| os_ready := os_ready quiet; read_outcome := ReadIncomplete;
             write_outcome := WriteIncomplete; close_fails := true |}
       playing_client).2 = None ∧
  fsm (stop {| os_ready := os_ready quiet; read_outcome := ReadIncomplete;
               write_outcome := WriteIncomplete; close_fails := true |}
         playing_client).2 = fsm playing_client ∧
  proto_message
    (fields
       (stop {| os_ready := os_ready quiet; read_outcome := ReadIncomplete;
                write_outcome := WriteIncomplete; close_fails := true |}
          playing_client).2) = proto_message (fields playing_client) ∧
  processed_count
    (fields
       (stop {| os_ready := os_ready quiet; read_outcome := ReadIncomplete;
                write_outcome := WriteIncomplete; close_fails := true |}
          playing_client).2) = processed_count (fields playing_client).
Proof.
  apply (stop_releases _ playing_client {| fileno := 3 |}). reflexivity.
Defined.

(** What each call does to a stopped client. *)
Lemma call_stopped serialize op c :
  stopped c →
  stopped (call serialize op c).2 ∧
  fsm (call serialize op c).2 = fsm c ∧
  (call serialize op c).1
  = match op with
    | CallTick _ => Ok ()
    | _ => Raise AttributeError
    end.
Proof.
  intros Hs. destruct op as [player_name|io|io]; simpl.
  - destruct (connect_cases serialize player_name c {| fileno := 0 |})
      as (Hfsm & _ & _ & _ & Hcase).
    destruct (Hcase Hs) as (? & Hcore & _).
    split; [by apply (same_core_stopped c)|done].
  - rewrite (tick_stopped io c Hs). split; [|done]. by destruct Hs.
  - destruct (stop_none io c (proj1 Hs)) as (? & Hcore & ?).
    split; [by apply (same_core_stopped c)|done].
Qed.

(** X5.  [stop()] is final.  Whatever is called on a stopped client, it
    stays stopped with its state machine as it is; every [connect()] and
    every further [stop()] raises [AttributeError], every [tick()]
    returns normally. *)
Theorem stop_is_final serialize calls c :
  stopped c →
  stopped (session serialize calls c) ∧
  fsm (session serialize calls c) = fsm c ∧
  ∀ op, (call serialize op (session serialize calls c)).1
        = match op with
          | CallTick _ => Ok ()
          | _ => Raise AttributeError
          end.
Proof.
  revert c. induction calls as [|op calls IH]; intros c Hs.
  - split; [done|]. split; [done|]. intros op.
    by destruct (call_stopped serialize op c Hs) as (_ & _ & ?).
  - simpl. destruct (call_stopped serialize op c Hs) as (Hs' & Hfsm & _).
    destruct (IH _ Hs') as (? & Hfsm' & ?).
    split; [done|]. split; [congruence|done].
Qed.

Lemma stop_is_final_witness :
  stopped
    (session tag_serialize
       [CallConnect "Player2"; CallTick sending; CallStop quiet]
       (stop quiet playing_client).2) ∧
  fsm (session tag_serialize
         [CallConnect "Player2"; CallTick sending; CallStop quiet]
         (stop quiet playing_client).2)
  = fsm (stop quiet playing_client).2 ∧
  ∀ op, (call tag_serialize op
           (session tag_serialize
              [CallConnect "Player2"; CallTick sending; CallStop quiet]
              (stop quiet playing_client).2)).1
        = match op with
          | CallTick _ => Ok ()
          | _ => Raise AttributeError
          end.
Proof.
  apply (stop_is_final tag_serialize
           [CallConnect "Player2"; CallTick sending; CallStop quiet]
           (stop quiet playing_client).2).
  split; reflexivity.
Defined.

(** ** [tick()] with nothing to process *)

(** X7.  On a client without registration, as before [connect()] and
    after [stop()], any number of [tick()] calls return normally and do
    nothing but log one error each. *)
Theorem tick_unconnected serialize ios c :
  selectors.get_map_truth (selector (fields c)) = false →
  session serialize (CallTick <$> ios) c
  = Nat.iter (length ios) (with_fields (logging ErrorNotConnected)) c ∧
  ∀ io, (tick io (session serialize (CallTick <$> ios) c)).1 = Ok ().
Proof.
  revert c. induction ios as [|io ios IH]; intros c Hmap.
  - split; [done|]. intros io. by rewrite tick_unregistered.
  - rewrite fmap_cons.
    change (session serialize (CallTick io :: (CallTick <$> ios)) c)
      with (session serialize (CallTick <$> ios) (tick io c).2).
    rewrite (tick_unregistered io c Hmap). cbn [snd length].
    destruct (IH (with_fields (logging ErrorNotConnected) c)) as [Heq Hok];
      [done|].
    split; [|done]. rewrite Heq. by rewrite <- Nat.iter_succ_r.
Qed.

Lemma tick_unconnected_witness :
  session tag_serialize (CallTick <$> [quiet; sending])
    (init tag_serialize ("localhost"%string, 54879) 3)
  = Nat.iter (length [quiet; sending])
      (with_fields (logging ErrorNotConnected))
      (init tag_serialize ("localhost"%string, 54879) 3) ∧
  ∀ io, (tick io
           (session tag_serialize (CallTick <$> [quiet; sending])
              (init tag_serialize ("localhost"%string, 54879) 3))).1
        = Ok ().
Proof.
  apply (tick_unconnected tag_serialize [quiet; sending]
           (init tag_serialize ("localhost"%string, 54879) 3)).
  reflexivity.
Defined.



(** X9.  A write that does not flush the whole buffer keeps the message
    at hand and the write interest, so that the next [tick()] goes on
    sending; the state machine is not touched. *)
Theorem tick_partial_write io c s key m :
  live c s key →
  key_events key = EVENT_WRITE →
  Z.land (os_ready io (fileno s)) EVENT_WRITE ≠ 0 →
  proto_message (fields c) = Some m →
  buffer m ≠ [] →
  write_outcome io = WriteIncomplete →
  (tick io c).1 = Ok () ∧
  registered_events (tick io c).2 = Some EVENT_WRITE ∧
  proto_message (fields (tick io c).2) = Some m ∧
  writer_buffer (writer (fields (tick io c).2)) = buffer m ∧
  fsm (tick io c).2 = fsm c.
Proof.
  intros Hlive Hev Hready Hm Hbuf Hwrite.
  rewrite (tick_write_eq c s key Hlive io Hev Hready), Hm.
  destruct (buffer m) as [|b bs] eqn:Hb; [done|]. cbv zeta.
  rewrite Hwrite. cbn [fst snd]. split; [done|]. split; [|by simpl].
  rewrite <- Hev. apply (registered_events_live _ s).
  by apply (same_core_live c).
Qed.

Lemma tick_partial_write_witness :
  (tick quiet connected_client).1 = Ok () ∧
  registered_events (tick quiet connected_client).2 = Some EVENT_WRITE ∧
  proto_message (fields (tick quiet connected_client).2)
  = Some {| payload := Some (ConnectPayload "Player2");
            buffer := [Byte.x01] |} ∧
  writer_buffer (writer (fields (tick quiet connected_client).2))
  = buffer {| payload := Some (ConnectPayload "Player2");
              buffer := [Byte.x01] |} ∧
  fsm (tick quiet connected_client).2 = fsm connected_client.
Proof.
  apply (tick_partial_write quiet connected_client {| fileno := 3 |}
           {| key_fileobj := {| fileno := 3 |}; key_fd := 3;
              key_events := EVENT_WRITE |}
           {| payload := Some (ConnectPayload "Player2");
              buffer := [Byte.x01] |}).
  - repeat split; vm_compute; congruence.
  - reflexivity.
  - vm_compute. congruence.
  - reflexivity.
  - discriminate.
  - reflexivity.
Defined.

(** ** Responses the client cannot use *)

(** X10.  A decoded response without a message field, or whose message
    names an input that the table does not declare for the current
    state, makes [tick()] raise [KeyError].  The state machine, the
    message at hand and the count of responses are as before, the read
    interest stays, and the reader is not reset: it still holds the
    response. *)
Theorem tick_unusable_response serialize io c s key d :
  live c s key →
  key_events key = EVENT_READ →
  Z.land (os_ready io (fileno s)) EVENT_READ ≠ 0 →
  read_outcome io = ReadComplete d →
  transitions (fsm c) = client_transitions serialize →
  d !! "message"%string = None ∨
  (∃ i, d !! "message"%string = Some (PyStr (ClientInput_value i)) ∧
        declared (fsm c) (state (fsm c)) i = None) →
  (tick io c).1 = Raise KeyError ∧
  fsm (tick io c).2 = fsm c ∧
  proto_message (fields (tick io c).2) = proto_message (fields c) ∧
  processed_count (fields (tick io c).2) = processed_count (fields c) ∧
  registered_events (tick io c).2 = Some EVENT_READ ∧
  obj (reader (fields (tick io c).2)) = Some d.
Proof.
  intros Hlive Hev Hready Hread Htable Hcase.
  rewrite (tick_read_eq serialize c s key Hlive io Hev Hready Htable), Hread.
  assert (Hreg : ∀ c', same_core c c' →
            registered_events c' = Some EVENT_READ).
  { intros c' Hcore. rewrite <- Hev. apply (registered_events_live _ s).
    by apply (same_core_live c). }
  destruct c as [[addr sel so pm n rd wr lg] m].
  unfold process_response. run_client.
  destruct Hcase as [Hd|(i & Hd & Hund)]; rewrite Hd.
  - simpl. repeat split; try done. by apply Hreg.
  - assert (ClientInput_call (PyStr (ClientInput_value i)) = Ok i) as ->
      by (by destruct i).
    cbn [fsm fields]. unfold declared in Hund. cbn [fsm] in Hund.
    unfold transition.
    destruct (transitions m !! state m) as [row|]; cbn [mbind option_bind] in Hund;
      [rewrite Hund|]; simpl; (repeat split; try done); by apply Hreg.
Qed.

Lemma tick_unusable_response_witness :
  (tick (receiving (response "START")) awaiting_client).1 = Raise KeyError ∧
  fsm (tick (receiving (response "START")) awaiting_client).2
  = fsm awaiting_client ∧
  proto_message (fields (tick (receiving (response "START")) awaiting_client).2)
  = proto_message (fields awaiting_client) ∧
  processed_count
    (fields (tick (receiving (response "START")) awaiting_client).2)
  = processed_count (fields awaiting_client) ∧
  registered_events (tick (receiving (response "START")) awaiting_client).2
  = Some EVENT_READ ∧
  obj (reader (fields (tick (receiving (response "START")) awaiting_client).2))
  = Some (response "START").
Proof.
  apply (tick_unusable_response tag_serialize (receiving (response "START"))
           awaiting_client {| fileno := 3 |}
           {| key_fileobj := {| fileno := 3 |}; key_fd := 3;
              key_events := EVENT_READ |} (response "START")).
  - repeat split; vm_compute; congruence.
  - reflexivity.
  - vm_compute. congruence.
  - reflexivity.
  - reflexivity.
  - right. exists START. split; reflexivity.
Defined.

(** ** The end of a game *)

(** X13.  In [PLAYING], with the last message sent and reset, a response
    [STOP] brings the state machine back to [DISCONNECTED] and switches
    to write interest without making a message: every later [tick()]
    that finds the socket writable raises [AssertionError] and changes
    nothing. *)
Theorem tick_after_stop_response serialize io c s key d m :
  live c s key →
  key_events key = EVENT_READ →
  Z.land (os_ready io (fileno s)) EVENT_READ ≠ 0 →
  read_outcome io = ReadComplete d →
  transitions (fsm c) = client_transitions serialize →
  state (fsm c) = PLAYING →
  d !! "message"%string = Some (PyStr "STOP") →
  proto_message (fields c) = Some m →
  buffer m = [] →
  (tick io c).1 = Ok () ∧
  state (fsm (tick io c).2) = DISCONNECTED ∧
  registered_events (tick io c).2 = Some EVENT_WRITE ∧
  ∀ io', Z.land (os_ready io' (fileno s)) EVENT_WRITE ≠ 0 →
         tick io' (tick io c).2 = (Raise AssertionError, (tick io c).2).
Proof.
  intros Hlive Hev Hready Hread Htable Hstate Hd Hm Hbuf.
  rewrite (tick_read_eq serialize c s key Hlive io Hev Hready Htable), Hread.
  destruct c as [[addr sel so pm n rd wr lg] fm].
  pose proof Hlive as (Hso & Hfd & Hsel). simpl in *. subst so sel pm.
  unfold process_response. run_client. rewrite Hd. simpl.
  rewrite (client_step serialize) by done. rewrite Hstate. simpl.
  split; [done|]. split; [done|].
  match goal with
  | |- registered_events ?c' = _ ∧ _ =>
    assert (Hlive' : live c' s (with_events key EVENT_WRITE)) by done
  end.
  split; [by rewrite (registered_events_live _ _ _ Hlive')|].
  intros io' Hready'.
  rewrite (tick_write_eq _ s _ Hlive' io') by done. simpl. by rewrite Hbuf.
Qed.

Lemma tick_after_stop_response_witness :
  (tick (receiving (response "STOP")) playing_client).1 = Ok () ∧
  state (fsm (tick (receiving (response "STOP")) playing_client).2)
  = DISCONNECTED ∧
  registered_events (tick (receiving (response "STOP")) playing_client).2
  = Some EVENT_WRITE ∧
  ∀ io', Z.land (os_ready io' (fileno {| fileno := 3 |})) EVENT_WRITE ≠ 0 →
         tick io' (tick (receiving (response "STOP")) playing_client).2
         = (Raise AssertionError,
            (tick (receiving (response "STOP")) playing_client).2).
Proof.
  apply (tick_after_stop_response tag_serialize
           (receiving (response "STOP")) playing_client {| fileno := 3 |}
           {| key_fileobj := {| fileno := 3 |}; key_fd := 3;
              key_events := EVENT_READ |} (response "STOP")
           {| payload := None; buffer := [] |}).
  - repeat split; vm_compute; congruence.
  - reflexivity.
  - vm_compute. congruence.
  - reflexivity.
  - reflexivity.
  - reflexivity.
  - reflexivity.
  - reflexivity.
  - reflexivity.
Defined.

(** ** Every client made by [Client(address)] *)

(** X16.  Whatever is called on a new client, in any order and whatever
    the transport does, its state machine is in [DISCONNECTED],
    [CONNECTED] or [PLAYING]. *)
Theorem session_state serialize addr fd calls :
  state (fsm (session serialize calls (init serialize addr fd)))
  ∈ [DISCONNECTED; CONNECTED; PLAYING].
Proof.
  destruct (session_client_inv serialize calls _ _
              (init_client_inv serialize addr fd)) as (_ & Hstate & _).
  destruct (state _); [set_solver|set_solver|done|set_solver].
Qed.

(** X17.  Whatever is called on a new client, it holds its socket
    exactly as long as its selector is open; once the socket is gone
    the selector has no registration left, and before that it has none
    but that of the socket. *)
Theorem session_resources serialize addr fd calls :
  let c := session serialize calls (init serialize addr fd) in
  (socket (fields c) = None ↔ sel_closed (selector (fields c)) = true) ∧
  (socket (fields c) = None ∨ socket (fields c) = Some {| fileno := fd |}) ∧
  (socket (fields c) = None → fd_to_key (selector (fields c)) = ∅) ∧
  dom (fd_to_key (selector (fields c))) ⊆ ({[fd]} : gset Z).
Proof.
  cbv zeta.
  destruct (session_client_inv serialize calls _ _
              (init_client_inv serialize addr fd)) as (_ & _ & Hshape).
  destruct Hshape as [(Hso & Hsel)|[[(key & (Hso & _ & Hsel) & _) _]|(Hso & Hsel)]];
    rewrite Hso, Hsel; simpl.
  - repeat split; try done; auto.
  - repeat split; try done; auto. by rewrite dom_singleton_L.
  - repeat split; try done; auto.
Qed.

Section TickOutcomes.
Variable serialize : Payload → list Byte.byte.

(** [tick()] on any client of a session, by what it raises and what it
    counts. *)
Lemma tick_outcome io c s :
  client_inv serialize s c →
  match (tick io c).1 with
  | Ok _ => True
  | Raise e =>
    e = AssertionError ∨ e = KeyError ∨ e = ValueError ∨
    ((read_outcome io = ReadFault e ∨ write_outcome io = WriteFault e) ∧
     catches connection_faults e = false)
  end ∧
  ((processed_count (fields (tick io c).2) = processed_count (fields c) + 1 ∧
    (tick io c).1 = Ok () ∧
    registered_events c = Some EVENT_READ ∧
    Z.land (os_ready io (fileno s)) EVENT_READ ≠ 0 ∧
    ∃ d, read_outcome io = ReadComplete d) ∨
   (processed_count (fields (tick io c).2) = processed_count (fields c) ∧
    (registered_events c = Some EVENT_READ →
     Z.land (os_ready io (fileno s)) EVENT_READ ≠ 0 →
     (∃ d, read_outcome io = ReadComplete d) →
     raised (tick io c).1 = true))).
Proof.
  intros (Htable & Hstate & Hshape).
  destruct Hshape as [Hi|[[(key & Hl & Hone) Hpm]|Hs]].
  - rewrite tick_unregistered; [|by destruct Hi as (_ & ->)].
    split; [done|]. right. split; [done|].
    destruct Hi as (Hso & Hsel). unfold registered_events.
    by rewrite Hso, Hsel.
  - pose proof Hl as (Hso & Hfd & Hsel).
    pose proof (registered_events_live c s key Hl) as Hreg.
    destruct (mask_one_interest (os_ready io (fileno s)) _ Hone) as [Hz|Hm].
    { rewrite (tick_live io c s key Hl). cbv zeta. rewrite Hz. simpl.
      split; [done|]. right. split; [done|]. rewrite Hreg.
      intros [= Hev]. by rewrite Hev in Hz. }
    assert (Hready : Z.land (os_ready io (fileno s)) (key_events key) ≠ 0).
    { rewrite Hm. by destruct Hone as [-> | ->]. }
    destruct Hone as [Hev|Hev]; rewrite Hev in Hready.
    + rewrite (tick_read_eq serialize c s key Hl io Hev Hready Htable).
      destruct (read_outcome io) as [|d|e] eqn:Hread.
      * split; [done|]. right. split; [done|]. by intros _ _ [d ?].
      * pose proof (process_response_effects serialize d
                      (with_fields (set_reader {| obj := Some d |}) c) Htable)
          as Heff.
        cbv zeta in Heff. destruct Heff as (Hres & _).
        destruct (process_response _ _) as [[[]|e] c']; cbn [fst snd] in *.
        -- split; [done|]. left. destruct Hres as [Hn _].
           split; [done|]. split; [done|]. split; [by rewrite Hreg, Hev|].
           split; [done|]. by exists d.
        -- destruct Hres as (He & _ & _ & Hn). split; [tauto|].
           right. by split.
      * destruct (catches connection_faults e) eqn:Hcatch.
        -- destruct (stop_open io
                       (with_fields (logging (DebugDisconnected e)) c) s Hso)
             as (-> & _).
           destruct (stop_frame io
                       (with_fields (logging (DebugDisconnected e)) c))
             as (_ & _ & -> & _).
           split; [done|]. right. split; [done|]. by intros _ _ [d ?].
        -- split; [right; right; right; by auto|]. right. by split.
    + rewrite (tick_write_eq c s key Hl io Hev Hready).
      assert (Hnot : ∀ P : Prop, registered_events c = Some EVENT_READ → P).
      { rewrite Hreg, Hev. by intros P [=]. }
      destruct Hpm as [m ->].
      destruct (buffer m) as [|b bs];
        [simpl; split; [by left|right; split; [done|intros Hr; exact (Hnot _ Hr)]]|].
      cbv zeta. destruct (write_outcome io) as [| |e] eqn:Hwrite.
      * split; [done|]. right. split; [done|intros Hr; exact (Hnot _ Hr)].
      * split; [done|]. right. split; [done|intros Hr; exact (Hnot _ Hr)].
      * destruct (catches connection_faults e) eqn:Hcatch.
        -- match goal with
           | |- context [stop io ?c1] =>
             destruct (stop_open io c1 s Hso) as (-> & _);
             destruct (stop_frame io c1) as (_ & _ & -> & _)
           end.
           split; [done|]. right. split; [done|intros Hr; exact (Hnot _ Hr)].
        -- simpl. split; [right; right; right; by auto|].
           right. split; [done|intros Hr; exact (Hnot _ Hr)].
  - rewrite (tick_stopped io c Hs). split; [done|]. right. split; [done|].
    by rewrite (registered_events_stopped c Hs).
Qed.

End TickOutcomes.

(** X12.  On a client made by [Client(address)], whatever was called on
    it before, [tick()] raises nothing but: [AssertionError], for a
    writable event with an empty buffer; [KeyError] or [ValueError], for
    a response it cannot use; or the exception of the read or write
    itself, when its class is not one that [tick()] catches. *)
Theorem tick_raises_only serialize addr fd calls io e :
  (tick io (session serialize calls (init serialize addr fd))).1 = Raise e →
  e = AssertionError ∨ e = KeyError ∨ e = ValueError ∨
  ((read_outcome io = ReadFault e ∨ write_outcome io = WriteFault e) ∧
   catches connection_faults e = false).
Proof.
  intros Hraise.
  pose proof (session_client_inv serialize calls _ _
                (init_client_inv serialize addr fd)) as Hinv.
  destruct (tick_outcome serialize io _ _ Hinv) as [Hres _].
  by rewrite Hraise in Hres.
Qed.

Lemma tick_raises_only_witness :
  ValueError = AssertionError ∨ ValueError = KeyError ∨
  ValueError = ValueError ∨
  ((read_outcome (receiving (response "bogus")) = ReadFault ValueError ∨
    write_outcome (receiving (response "bogus")) = WriteFault ValueError) ∧
   catches connection_faults ValueError = false).
Proof.
  apply (tick_raises_only tag_serialize ("localhost"%string, 54879) 3
           [CallConnect "Player2"; CallTick sending]
           (receiving (response "bogus")) ValueError).
  reflexivity.
Defined.

Lemma call_count serialize op c s :
  client_inv serialize s c →
  processed_count (fields (call serialize op c).2)
  = processed_count (fields c) ∨
  processed_count (fields (call serialize op c).2)
  = processed_count (fields c) + 1.
Proof.
  intros Hinv. destruct op as [player_name|io|io]; simpl.
  - left. by destruct (connect_cases serialize player_name c s) as (_ & ? & _).
  - destruct (tick_outcome serialize io c s Hinv) as [_ [(? & _)|(? & _)]];
      auto.
  - left. by destruct (stop_frame io c) as (_ & _ & ? & _).
Qed.

Lemma session_count serialize calls : ∀ c s,
  client_inv serialize s c →
  processed_count (fields c)
  ≤ processed_count (fields (session serialize calls c))
  ≤ processed_count (fields c) + Z.of_nat (length calls).
Proof.
  induction calls as [|op calls IH]; intros c s Hinv; [simpl; lia|].
  change (session serialize (op :: calls) c)
    with (session serialize calls (call serialize op c).2).
  pose proof (IH _ s (call_client_inv serialize op c s Hinv)) as Hrest.
  pose proof (call_count serialize op c s Hinv) as Hop.
  rewrite length_cons. lia.
Qed.

(** X11.  The count of processed responses of a client made by
    [Client(address)]: a call leaves it as it is or adds one; it adds
    one exactly when the call is a [tick()] that, under read interest
    and with the socket readable, completes a read and returns
    normally; so it is never negative and never more than the number of
    calls. *)
Theorem processed_count_counts serialize addr fd calls op :
  let c := session serialize calls (init serialize addr fd) in
  let c' := (call serialize op c).2 in
  (processed_count (fields c') = processed_count (fields c) ∨
   processed_count (fields c') = processed_count (fields c) + 1) ∧
  (processed_count (fields c') = processed_count (fields c) + 1 ↔
   ∃ io d, op = CallTick io ∧
           registered_events c = Some EVENT_READ ∧
           Z.land (os_ready io fd) EVENT_READ ≠ 0 ∧
           read_outcome io = ReadComplete d ∧
           (tick io c).1 = Ok ()) ∧
  0 ≤ processed_count (fields c) ≤ Z.of_nat (length calls).
Proof.
  cbv zeta.
  pose proof (session_client_inv serialize calls _ _
                (init_client_inv serialize addr fd)) as Hinv.
  split; [by apply (call_count serialize op _ {| fileno := fd |})|].
  split; [|exact (session_count serialize calls _ {| fileno := fd |}
                    (init_client_inv serialize addr fd))].
  split.
  - intros Hplus. destruct op as [player_name|io|io]; simpl in Hplus.
    + destruct (connect_cases serialize player_name
                  (session serialize calls (init serialize addr fd))
                  {| fileno := fd |}) as (_ & Hn & _). lia.
    + destruct (tick_outcome serialize io _ _ Hinv)
        as [_ [(_ & Hok & Hreg & Hready & d & Hd)|(Hn & _)]]; [|lia].
      by exists io, d.
    + destruct (stop_frame io
                  (session serialize calls (init serialize addr fd)))
        as (_ & _ & Hn & _). lia.
  - intros (io & d & -> & Hreg & Hready & Hd & Hok). simpl.
    destruct (tick_outcome serialize io _ _ Hinv)
      as [_ [(Hn & _)|(_ & Hraised)]]; [done|].
    rewrite Hok in Hraised. by discriminate Hraised; eauto.
Qed.

(** ** The program loop *)

(** X14.  When [tick()] finds the socket writable and the message at
    hand has an empty buffer, the loop catches the [AssertionError],
    stops the client and ends normally, whatever would have come
    next: this is how the program ends after the server's stop. *)
Theorem main_loop_ends_on_assertion it rest c s key m :
  live c s key →
  key_events key = EVENT_WRITE →
  Z.land (os_ready (iteration_io it) (fileno s)) EVENT_WRITE ≠ 0 →
  proto_message (fields c) = Some m →
  buffer m = [] →
  main_loop (it :: rest) c = Exited (stop (iteration_io it) c).2 ∧
  stopped (stop (iteration_io it) c).2 ∧
  fsm (stop (iteration_io it) c).2 = fsm c.
Proof.
  intros Hlive Hev Hready Hm Hbuf. cbn [main_loop].
  rewrite (tick_write_eq c s key Hlive _ Hev Hready), Hm, Hbuf.
  change (catches [AssertionError; KeyboardInterrupt] AssertionError)
    with true. cbv iota. unfold main_handler.
  destruct (stop_open (iteration_io it) c s (proj1 Hlive))
    as (Hok & Hstopped & Hfsm).
  destruct (stop (iteration_io it) c) as [[[]|e] c']; by simplify_eq.
Qed.

Lemma main_loop_ends_on_assertion_witness :
  main_loop [Sleeps quiet; Sleeps sending] told_to_stop
  = Exited (stop quiet told_to_stop).2 ∧
  stopped (stop quiet told_to_stop).2 ∧
  fsm (stop quiet told_to_stop).2 = fsm told_to_stop.
Proof.
  apply (main_loop_ends_on_assertion (Sleeps quiet) [Sleeps sending]
           told_to_stop {| fileno := 3 |}
           {| key_fileobj := {| fileno := 3 |}; key_fd := 3;
              key_events := EVENT_WRITE |}
           {| payload := None; buffer := [] |}).
  - repeat split; vm_compute; congruence.
  - reflexivity.
  - vm_compute. congruence.
  - reflexivity.
  - reflexivity.
Defined.

(** X15.  Once the client is stopped, as after a connection fault that
    [tick()] caught, the loop never ends normally: it goes on ticking
    as long as the user does not interrupt, and at the interrupt the
    [stop()] of the handler raises [AttributeError], which ends the
    program. *)
Theorem main_loop_after_disconnect script c :
  stopped c →
  match main_loop script c with
  | Running c' =>
    stopped c' ∧ Forall (λ it, it = Sleeps (iteration_io it)) script
  | Exited _ => False
  | Crashed e c' =>
    e = AttributeError ∧ stopped c' ∧
    Exists (λ it, it = Interrupted (iteration_io it)) script
  end.
Proof.
  revert c. induction script as [|it rest IH]; intros c Hs; [done|].
  cbn [main_loop]. rewrite (tick_stopped _ c Hs).
  assert (Hs' : stopped (with_fields (logging ErrorNotConnected) c))
    by (by destruct Hs).
  destruct it as [io|io].
  - specialize (IH _ Hs').
    destruct (main_loop rest _) as [c'|c'|e c']; [|done|].
    + destruct IH as [? ?]. split; [done|]. constructor; [reflexivity|done].
    + destruct IH as (? & ? & ?). split; [done|]. split; [done|].
      by apply Exists_cons_tl.
  - unfold main_handler.
    destruct (stop_none io _ (proj1 Hs')) as (Hraise & Hcore & _).
    destruct (stop io _) as [[[]|e] c']; cbn [fst snd] in *; simplify_eq.
    split; [done|]. split; [by apply (same_core_stopped _ _ Hcore)|].
    apply Exists_cons_hd. reflexivity.
Qed.

Lemma main_loop_after_disconnect_witness :
  match main_loop [Sleeps quiet; Interrupted quiet]
          (tick (failing_read ConnectionResetError) awaiting_client).2 with
  | Running c' =>
    stopped c' ∧
    Forall (λ it, it = Sleeps (iteration_io it))
      [Sleeps quiet; Interrupted quiet]
  | Exited _ => False
  | Crashed e c' =>
    e = AttributeError ∧ stopped c' ∧
    Exists (λ it, it = Interrupted (iteration_io it))
      [Sleeps quiet; Interrupted quiet]
  end.
Proof.
  apply (main_loop_after_disconnect [Sleeps quiet; Interrupted quiet]
           (tick (failing_read ConnectionResetError) awaiting_client).2).
  split; reflexivity.
Defined.

(** X18.  However the program runs, if its loop ends normally the
    client is stopped: no socket, no registration, selector closed. *)
Theorem main_exits_stopped serialize fd script :
  match main serialize fd script with
  | Exited c => stopped c
  | _ => True
  end.
Proof.
  unfold main. destruct (connect _ _ _) as [[[]|e] c]; [|done].
  revert c. induction script as [|it rest IH]; intros c; [done|].
  cbn [main_loop].
  assert (Hhandler : ∀ io c0,
            match main_handler io c0 with
            | Exited c1 => stopped c1
            | _ => True
            end).
  { intros io c0. unfold main_handler.
    destruct (socket (fields c0)) as [s|] eqn:Hso.
    - destruct (stop_open io c0 s Hso) as (_ & Hstopped & _).
      by destruct (stop io c0) as [[[]|] ?].
    - destruct (stop_none io c0 Hso) as (Hraise & _).
      destruct (stop io c0) as [[[]|] ?]; by simplify_eq. }
  destruct (tick (iteration_io it) c) as [[[]|e] c'].
  - destruct it; [apply IH|apply Hhandler].
  - destruct (catches _ e); [apply Hhandler|done].
Qed.

(** ** What [tick()] swallows *)

(** X19.  Among the built-in exception classes, the handler of
    [tick()] catches [RuntimeError] with its subclasses
    [NotImplementedError] and [RecursionError], [ConnectionRefusedError]
    and [ConnectionResetError], and no other: not [BrokenPipeError],
    [ConnectionAbortedError], [TimeoutError], [BlockingIOError] or a
    plain [OSError], and none of the errors of a response. *)
Theorem tick_catches_exactly e :
  catches connection_faults e = true ↔
  e ∈ [RuntimeError; NotImplementedError; RecursionError;
       ConnectionRefusedError; ConnectionResetError].
Proof.
  destruct e; split; intros He;
    first [ by vm_compute in He
          | by apply (bool_decide_unpack _)
          | reflexivity
          | by apply (bool_decide_pack _) in He; vm_compute in He ].
Qed.

(** ** The two phases do not mix *)

(** X20.  Under write interest a [tick()] never processes a response:
    state machine, count of responses and reader are as before,
    whatever the transport does.  Under read interest a [tick()] never
    sends: the writer is as before. *)
Theorem tick_phases_apart serialize io c s key :
  live c s key →
  transitions (fsm c) = client_transitions serialize →
  (key_events key = EVENT_WRITE →
   fsm (tick io c).2 = fsm c ∧
   processed_count (fields (tick io c).2) = processed_count (fields c) ∧
   reader (fields (tick io c).2) = reader (fields c)) ∧
  (key_events key = EVENT_READ →
   writer (fields (tick io c).2) = writer (fields c)).
Proof.
  intros Hlive Htable.
  assert (Hidle : ∀ events, key_events key = events → one_interest events →
            Z.land (os_ready io (fileno s)) events = 0 →
            tick io c = (Ok (), c)).
  { intros events <- Hone Hz. rewrite (tick_live io c s key Hlive).
    cbv zeta. by rewrite Hz. }
  split; intros Hev.
  - destruct (mask_one_interest (os_ready io (fileno s)) EVENT_WRITE)
      as [Hz|Hm]; [by right|by rewrite (Hidle _ Hev (or_intror eq_refl) Hz)|].
    rewrite (tick_write_eq c s key Hlive io Hev) by (by rewrite Hm).
    destruct (proto_message (fields c)) as [m|]; [|done].
    destruct (buffer m) as [|b bs]; [done|]. cbv zeta.
    destruct (write_outcome io) as [| |e]; [done|done|].
    destruct (catches connection_faults e); [|done].
    match goal with
    | |- context [stop io ?c1] =>
      destruct (stop_frame io c1) as (-> & _ & -> & -> & _)
    end.
    done.
  - destruct (mask_one_interest (os_ready io (fileno s)) EVENT_READ)
      as [Hz|Hm]; [by left|by rewrite (Hidle _ Hev (or_introl eq_refl) Hz)|].
    rewrite (tick_read_eq serialize c s key Hlive io Hev) by (done || by rewrite Hm).
    destruct (read_outcome io) as [|d|e]; [done| |].
    + pose proof (process_response_effects serialize d
                    (with_fields (set_reader {| obj := Some d |}) c) Htable)
        as Heff.
      cbv zeta in Heff. destruct Heff as (_ & _ & Hwr & _).
      by destruct (process_response _ _) as [[[]|e] c'].
    + destruct (catches connection_faults e); [|done].
      match goal with
      | |- context [stop io ?c1] =>
        destruct (stop_frame io c1) as (_ & _ & _ & _ & ->)
      end.
      done.
Qed.

Lemma tick_phases_apart_witness :
  (key_events {| key_fileobj := {| fileno := 3 |}; key_fd := 3;
                 key_events := EVENT_WRITE |} = EVENT_WRITE →
   fsm (tick sending connected_client).2 = fsm connected_client ∧
   processed_count (fields (tick sending connected_client).2)
   = processed_count (fields connected_client) ∧
   reader (fields (tick sending connected_client).2)
   = reader (fields connected_client)) ∧
  (key_events {| key_fileobj := {| fileno := 3 |}; key_fd := 3;
                 key_events := EVENT_WRITE |} = EVENT_READ →
   writer (fields (tick sending connected_client).2)
   = writer (fields connected_client)).
Proof.
  apply (tick_phases_apart tag_serialize sending connected_client
           {| fileno := 3 |}
           {| key_fileobj := {| fileno := 3 |}; key_fd := 3;
              key_events := EVENT_WRITE |}).
  - repeat split; vm_compute; congruence.
  - reflexivity.
Defined.
